(** * Rein: the trackpad gesture interpreter and the modifier buffer

    A shallow embedding of [useTrackpadGesture] (the touch handlers, the
    drag-release timer and [getClientSettings]) and of the modifier state
    machine of the trackpad route.  JavaScript numbers are IEEE-754 binary64
    values and are modelled by Rocq's primitive floats; the mutable refs of
    the hook are the fields of one [State] record that every handler takes
    and returns, together with the messages it passed to [send]. *)

From Stdlib Require Import Floats ZArith Ascii.
From stdpp Require Import base option list strings gmap.

(** ** JavaScript number and string operators *)

Module JS.

(** [x > y], [x >= y] and [x < y] on numbers; every comparison with NaN is
    false, as [PrimFloat.ltb] and [PrimFloat.leb] have it. *)
Definition gt (x y : float) : bool := PrimFloat.ltb y x.
Definition ge (x y : float) : bool := PrimFloat.leb y x.
Definition lt (x y : float) : bool := PrimFloat.ltb x y.

(** [Number.isNaN] *)
Definition isNaN (x : float) : bool := PrimFloat.is_nan x.

(** [Math.pow(x, 2)] *)
Definition pow2 (x : float) : float := (x * x)%float.

(** Comparison with a table entry that may be [undefined]: [undefined]
    converts to NaN, so the comparison is false. *)
Definition gt_entry (x : float) (entry : option float) : bool :=
  match entry with
  | Some y => gt x y
  | None => false
  end.

(** [s.length] on strings.  A string is held here as the bytes of its
    UTF-8 form, and [length] counts UTF-16 code units as JavaScript does:
    one for a character of one, two or three bytes, two (a surrogate
    pair) for a character of four bytes.  [codeUnits] is what one byte
    adds to the count: the units of a character are counted at its first
    byte, and the bytes 128 to 191, which continue a character, add
    nothing. *)
Definition codeUnits (c : ascii) : nat :=
  let n := nat_of_ascii c in
  if bool_decide (n < 128) then 1
  else if bool_decide (n < 192) then 0
  else if bool_decide (n < 240) then 1
  else 2.

Fixpoint length (s : string) : nat :=
  match s with
  | EmptyString => 0
  | String c s' => codeUnits c + length s'
  end.

End JS.

(** ** Data *)

Record TrackedTouch := mkTrackedTouch {
  identifier : Z;
  pageX : float;
  pageY : float;
  pageXStart : float;
  pageYStart : float;
  timeStamp : float
}.

(** One entry of [e.changedTouches]. *)
Record Touch := mkTouch {
  touch_identifier : Z;
  touch_pageX : float;
  touch_pageY : float
}.

Record TouchEvent := mkTouchEvent {
  ev_timeStamp : float;
  changedTouches : list Touch
}.

Inductive Button := Left | Right | Middle.

(** The objects handed to [send]. *)
Inductive Msg :=
| Click (button : Button) (press : bool)
| Zoom (delta : float)
| Scroll (dx dy : float)
| Move (dx dy : float).

(** The refs of the hook, and its [isTracking] state.  [draggingTimeout] is
    [Some d] while a timer armed with delay [d] is scheduled (the ref then
    holds the timer's handle, which is truthy) and [None] where the ref
    holds [null]. *)
Record State := mkState {
  ongoingTouches : list TrackedTouch;
  moved : bool;
  startTimeStamp : float;
  lastEndTimeStamp : float;
  releasedCount : nat;
  dragging : bool;
  draggingTimeout : option float;
  lastPinchDist : option float;
  pinching : bool;
  isTracking : bool
}.

Definition initial : State :=
  {| ongoingTouches := []; moved := false; startTimeStamp := 0%float;
     lastEndTimeStamp := 0%float; releasedCount := 0; dragging := false;
     draggingTimeout := None; lastPinchDist := None; pinching := false;
     isTracking := false |}.

Record ClientSettings := mkClientSettings {
  sensitivity : float;
  invert : bool
}.

Definition getTouchDistance (a b : TrackedTouch) : float :=
  let dx := (pageX a - pageX b)%float in
  let dy := (pageY a - pageY b)%float in
  PrimFloat.sqrt (dx * dx + dy * dy)%float.

Definition SENSITIVITY : string := "rein_mouse_sensitivity"%string.
Definition INVERT : string := "rein_mouse_invert"%string.

Definition ids (ts : list TrackedTouch) : list Z := identifier <$> ts.
Definition touch_ids (cs : list Touch) : list Z := touch_identifier <$> cs.

(** [ongoingTouches.current.findIndex(t => t.identifier === id)], with the
    element found; [None] is the source's [-1]. *)
Definition findTouch (ts : list TrackedTouch) (id : Z)
  : option (nat * TrackedTouch) :=
  list_find (λ t, identifier t = id) ts.

Definition findTouchIndex (ts : list TrackedTouch) (id : Z) : option nat :=
  fst <$> findTouch ts id.

Section Gesture.

(** The constants and the acceleration curve of [utils/math], and the
    built-in string-to-number conversion [Number]. *)
Variable TOUCH_MOVE_THRESHOLD : list float.
Variable TOUCH_TIMEOUT : float.
Variable PINCH_THRESHOLD : float.
Variable calculateAccelerationMult : float → float.
Variable Number : string → float.

(** [localStorage] is [None] where [typeof localStorage === 'undefined']. *)
Definition getClientSettings (localStorage : option (gmap string string))
  : ClientSettings :=
  match localStorage with
  | None => {| sensitivity := 1.0%float; invert := false |}
  | Some store =>
      let s := store !! SENSITIVITY in
      let sensitivity :=
        match s with
        | Some v => if negb (JS.isNaN (Number v)) then Number v else 1.0%float
        | None => 1.0%float
        end in
      let invert := bool_decide (store !! INVERT = Some "true"%string) in
      {| sensitivity := sensitivity; invert := invert |}
  end.

Definition handleDraggingTimeout (s : State) : State * list Msg :=
  ({| ongoingTouches := ongoingTouches s; moved := moved s;
      startTimeStamp := startTimeStamp s;
      lastEndTimeStamp := lastEndTimeStamp s;
      releasedCount := releasedCount s; dragging := dragging s;
      draggingTimeout := None;
      lastPinchDist := lastPinchDist s; pinching := pinching s;
      isTracking := isTracking s |},
   [Click Left false]).

(** *** handleTouchStart *)

(** The [tracked] object built for a new contact. *)
Definition track (now : float) (touch : Touch) : TrackedTouch :=
  {| identifier := touch_identifier touch;
     pageX := touch_pageX touch; pageY := touch_pageY touch;
     pageXStart := touch_pageX touch; pageYStart := touch_pageY touch;
     timeStamp := now |}.

(** One turn of the loop over [e.changedTouches]. *)
Definition startTouch (now : float) (ts : list TrackedTouch) (touch : Touch)
  : list TrackedTouch :=
  let tracked := track now touch in
  match findTouchIndex ts (touch_identifier touch) with
  | None => ts ++ [tracked]
  | Some idx => <[idx := tracked]> ts
  end.

Definition handleTouchStart (e : TouchEvent) (s : State) : State * list Msg :=
  let fresh := bool_decide (length (ongoingTouches s) = 0) in
  let startTimeStamp' := if fresh then ev_timeStamp e else startTimeStamp s in
  let moved' := if fresh then false else moved s in
  let ts := foldl (startTouch (ev_timeStamp e)) (ongoingTouches s)
                  (changedTouches e) in
  let '(lastPinchDist', pinching') :=
    match ts with
    | [a; b] => (Some (getTouchDistance a b), false)
    | _ => (lastPinchDist s, pinching s)
    end in
  let '(draggingTimeout', dragging') :=
    match draggingTimeout s with
    | Some _ => (None, true)
    | None => (None, dragging s)
    end in
  ({| ongoingTouches := ts; moved := moved';
      startTimeStamp := startTimeStamp';
      lastEndTimeStamp := 0%float;
      releasedCount := releasedCount s; dragging := dragging';
      draggingTimeout := draggingTimeout';
      lastPinchDist := lastPinchDist'; pinching := pinching';
      isTracking := true |},
   []).

(** *** handleTouchMove *)

(** The threshold for [n] active touches; [None] is [undefined]. *)
Definition moveThreshold (n : nat) : option float :=
  if bool_decide (length TOUCH_MOVE_THRESHOLD < n)
  then TOUCH_MOVE_THRESHOLD !! (length TOUCH_MOVE_THRESHOLD - 1)
  else TOUCH_MOVE_THRESHOLD !! (n - 1).

(** Distance of a contact from the start position of its tracked touch. *)
Definition travel (touch : Touch) (tracked : TrackedTouch) : float :=
  PrimFloat.sqrt (JS.pow2 (touch_pageX touch - pageXStart tracked)
                  + JS.pow2 (touch_pageY touch - pageYStart tracked))%float.

(** What the loop of [handleTouchMove] carries from turn to turn. *)
Record MoveAcc := mkMoveAcc {
  acc_touches : list TrackedTouch;
  acc_moved : bool;
  sumX : float;
  sumY : float
}.

Definition moveTouch (now start : float) (acc : MoveAcc) (touch : Touch)
  : MoveAcc :=
  match findTouch (acc_touches acc) (touch_identifier touch) with
  | None => acc
  | Some (idx, tracked) =>
      let moved' :=
        if acc_moved acc then true
        else
          let dist := travel touch tracked in
          let threshold := moveThreshold (length (acc_touches acc)) in
          JS.gt_entry dist threshold
          || JS.ge (now - start)%float TOUCH_TIMEOUT in
      let dx := (touch_pageX touch - pageX tracked)%float in
      let dy := (touch_pageY touch - pageY tracked)%float in
      let timeDelta := (now - timeStamp tracked)%float in
      let '(sumX', sumY') :=
        if JS.gt timeDelta 0%float then
          let speedX := (PrimFloat.abs dx / timeDelta * 1000)%float in
          let speedY := (PrimFloat.abs dy / timeDelta * 1000)%float in
          ((sumX acc + dx * calculateAccelerationMult speedX)%float,
           (sumY acc + dy * calculateAccelerationMult speedY)%float)
        else (sumX acc, sumY acc) in
      let tracked' :=
        {| identifier := identifier tracked;
           pageX := touch_pageX touch; pageY := touch_pageY touch;
           pageXStart := pageXStart tracked;
           pageYStart := pageYStart tracked;
           timeStamp := now |} in
      {| acc_touches := <[idx := tracked']> (acc_touches acc);
         acc_moved := moved'; sumX := sumX'; sumY := sumY' |}
  end.

(** The whole loop over [e.changedTouches]. *)
Definition moveBatch (e : TouchEvent) (s : State) : MoveAcc :=
  foldl (moveTouch (ev_timeStamp e) (startTimeStamp s))
        {| acc_touches := ongoingTouches s; acc_moved := moved s;
           sumX := 0%float; sumY := 0%float |}
        (changedTouches e).

(** The state once the loop has run. *)
Definition afterMoveBatch (e : TouchEvent) (s : State) : State :=
  let acc := moveBatch e s in
  {| ongoingTouches := acc_touches acc; moved := acc_moved acc;
     startTimeStamp := startTimeStamp s;
     lastEndTimeStamp := lastEndTimeStamp s;
     releasedCount := releasedCount s; dragging := dragging s;
     draggingTimeout := draggingTimeout s;
     lastPinchDist := lastPinchDist s; pinching := pinching s;
     isTracking := isTracking s |}.

Definition setPinch (s : State) (dist : option float) (p : bool) : State :=
  {| ongoingTouches := ongoingTouches s; moved := moved s;
     startTimeStamp := startTimeStamp s;
     lastEndTimeStamp := lastEndTimeStamp s;
     releasedCount := releasedCount s; dragging := dragging s;
     draggingTimeout := draggingTimeout s;
     lastPinchDist := dist; pinching := p;
     isTracking := isTracking s |}.

(** [dist - lastPinchDist.current], or 0 without a baseline. *)
Definition pinchDelta (dist : float) (baseline : option float) : float :=
  match baseline with
  | Some last => (dist - last)%float
  | None => 0%float
  end.

(** The part of [handleTouchMove] after the loop: [s] is the state the
    loop left, [sx] and [sy] are [sumX] and [sumY]. *)
Definition dispatch (scrollMode : bool)
    (localStorage : option (gmap string string))
    (now : float) (s : State) (sx sy : float) : State * list Msg :=
  if moved s && JS.ge (now - lastEndTimeStamp s)%float TOUCH_TIMEOUT then
    let settings := getClientSettings localStorage in
    let scrollSign := if invert settings then 1%float else (-1)%float in
    let scrolled :=
      Scroll (sx * sensitivity settings * scrollSign)%float
             (sy * sensitivity settings * scrollSign)%float in
    match negb scrollMode, ongoingTouches s with
    | true, [a; b] =>
        let dist := getTouchDistance a b in
        let delta := pinchDelta dist (lastPinchDist s) in
        if pinching s || JS.gt (PrimFloat.abs delta) PINCH_THRESHOLD then
          (setPinch s (Some dist) true,
           [Zoom (delta * sensitivity settings)%float])
        else
          (setPinch s (Some dist) (pinching s), [scrolled])
    | _, _ =>
        if scrollMode then (s, [scrolled])
        else if bool_decide (length (ongoingTouches s) = 1) || dragging s
        then (s, [Move (sx * sensitivity settings)%float
                       (sy * sensitivity settings)%float])
        else (s, [])
    end
  else (s, []).

Definition handleTouchMove (scrollMode : bool)
    (localStorage : option (gmap string string))
    (e : TouchEvent) (s : State) : State * list Msg :=
  let acc := moveBatch e s in
  dispatch scrollMode localStorage (ev_timeStamp e)
           (afterMoveBatch e s) (sumX acc) (sumY acc).

(** *** handleTouchEnd *)

(** One turn of the loop: [splice(idx, 1)] and the count of releases. *)
Definition endTouch (acc : list TrackedTouch * nat) (touch : Touch)
  : list TrackedTouch * nat :=
  match findTouchIndex acc.1 (touch_identifier touch) with
  | Some idx => (delete idx acc.1, S acc.2)
  | None => acc
  end.

Definition tapButton (released : nat) : option Button :=
  match released with
  | 1 => Some Left
  | 2 => Some Right
  | 3 => Some Middle
  | _ => None
  end.

Definition handleTouchEnd (e : TouchEvent) (s : State) : State * list Msg :=
  let '(ts, released) :=
    foldl endTouch (ongoingTouches s, releasedCount s) (changedTouches e) in
  let '(lastPinchDist', pinching') :=
    if bool_decide (length ts < 2) then (None, false)
    else (lastPinchDist s, pinching s) in
  let moved' :=
    if bool_decide (length TOUCH_MOVE_THRESHOLD < released) then true
    else moved s in
  if bool_decide (length ts = 0) && bool_decide (1 ≤ released) then
    let dragRelease := if dragging s then [Click Left false] else [] in
    let '(tap, draggingTimeout') :=
      if negb moved'
         && JS.lt (ev_timeStamp e - startTimeStamp s)%float TOUCH_TIMEOUT
      then
        match tapButton released with
        | Some Left => ([Click Left true], Some TOUCH_TIMEOUT)
        | Some button =>
            ([Click button true; Click button false], draggingTimeout s)
        | None => ([], draggingTimeout s)
        end
      else ([], draggingTimeout s) in
    ({| ongoingTouches := ts; moved := moved';
        startTimeStamp := startTimeStamp s;
        lastEndTimeStamp := ev_timeStamp e;
        releasedCount := 0; dragging := false;
        draggingTimeout := draggingTimeout';
        lastPinchDist := lastPinchDist'; pinching := pinching';
        isTracking := false |},
     dragRelease ++ tap)
  else
    ({| ongoingTouches := ts; moved := moved';
        startTimeStamp := startTimeStamp s;
        lastEndTimeStamp := ev_timeStamp e;
        releasedCount := released; dragging := dragging s;
        draggingTimeout := draggingTimeout s;
        lastPinchDist := lastPinchDist'; pinching := pinching';
        isTracking := isTracking s |},
     []).

(** *** The event loop *)

(** What can happen to the hook: one of its three handlers is called, or
    the scheduled drag-release timer fires.  A move carries the
    [scrollMode] prop of the current render and the contents of
    [localStorage] at the time of the call. *)
Inductive Event :=
| TouchStart (e : TouchEvent)
| TouchMove (scrollMode : bool) (localStorage : option (gmap string string))
            (e : TouchEvent)
| TouchEnd (e : TouchEvent)
| DragTimeout.

(** The timer callback runs only while the timer is scheduled:
    [clearTimeout] and the callback itself unschedule it. *)
Definition step (ev : Event) (s : State) : State * list Msg :=
  match ev with
  | TouchStart e => handleTouchStart e s
  | TouchMove scrollMode localStorage e =>
      handleTouchMove scrollMode localStorage e s
  | TouchEnd e => handleTouchEnd e s
  | DragTimeout =>
      match draggingTimeout s with
      | Some _ => handleDraggingTimeout s
      | None => (s, [])
      end
  end.

Fixpoint run (evs : list Event) (s : State) : State * list Msg :=
  match evs with
  | [] => (s, [])
  | ev :: evs' =>
      let '(s1, out1) := step ev s in
      let '(s2, out2) := run evs' s1 in
      (s2, out1 ++ out2)
  end.

(** *** Sessions

    The predicates the statements about whole gestures are phrased with. *)

(** The browser never delivers a touch-start without a changed touch. *)
Definition delivered (ev : Event) : Prop :=
  match ev with
  | TouchStart e => changedTouches e ≠ []
  | _ => True
  end.

(** The states the hook can be in. *)
Inductive reachable : State → Prop :=
| reachable_initial : reachable initial
| reachable_step ev s :
    reachable s → delivered ev → reachable (step ev s).1.

(** What holds of every reachable state: tracked identifiers are pairwise
    distinct; between sessions nothing is counted as released and no drag
    is on; the timer is scheduled between sessions only; below two touches
    there is no pinch; a release count beyond the table has set [moved]. *)
Record Inv (s : State) : Prop := mkInv {
  inv_nodup : NoDup (ids (ongoingTouches s));
  inv_idle :
    ongoingTouches s = [] → releasedCount s = 0 ∧ dragging s = false;
  inv_timer : is_Some (draggingTimeout s) → ongoingTouches s = [];
  inv_pinch :
    length (ongoingTouches s) < 2 →
    lastPinchDist s = None ∧ pinching s = false;
  inv_released :
    length TOUCH_MOVE_THRESHOLD < releasedCount s → moved s = true
}.

Definition isMove (ev : Event) : bool :=
  match ev with TouchMove _ _ _ => true | _ => false end.

(** Neither a touch-start nor the timer. *)
Definition isMoveOrEnd (ev : Event) : bool :=
  match ev with TouchMove _ _ _ | TouchEnd _ => true | _ => false end.

(** A contact of the touch [origin] stays strictly within [thr] of where
    the touch started. *)
Definition withinTap (origin : TrackedTouch) (thr : float) (c : Touch)
  : bool :=
  if decide (touch_identifier c = identifier origin)
  then JS.lt (travel c origin) thr
  else true.

(** A move event of a tap: earlier than the timeout after [start], with
    every contact of [origin] within the threshold [thr]. *)
Definition tapMove (start : float) (origin : TrackedTouch) (thr : float)
    (ev : Event) : bool :=
  match ev with
  | TouchMove _ _ m =>
      JS.lt (ev_timeStamp m - start)%float TOUCH_TIMEOUT
      && forallb (withinTap origin thr) (changedTouches m)
  | _ => false
  end.

(** A tap in progress: the touch that started as [origin] at time [start]
    is the only one tracked and no movement has been registered. *)
Definition tapping (start : float) (origin : TrackedTouch) (s : State)
  : Prop :=
  (∃ tr, ongoingTouches s = [tr]
         ∧ identifier tr = identifier origin
         ∧ pageXStart tr = pageXStart origin
         ∧ pageYStart tr = pageYStart origin)
  ∧ moved s = false ∧ startTimeStamp s = start.

(** After a tap: no touch, no movement, the drag-release timer armed. *)
Definition tapped (s : State) : Prop :=
  ongoingTouches s = [] ∧ moved s = false ∧ releasedCount s = 0
  ∧ dragging s = false ∧ draggingTimeout s = Some TOUCH_TIMEOUT.

(** After each of the events at least one touch is still active. *)
Fixpoint staysActive (evs : list Event) (s : State) : bool :=
  match evs with
  | [] => true
  | ev :: evs' =>
      let s' := (step ev s).1 in
      bool_decide (0 < length (ongoingTouches s')) && staysActive evs' s'
  end.

(** A touch-start that brings new contacts only, and at least one. *)
Definition bringsNewTouches (e : TouchEvent) (s : State) : bool :=
  match changedTouches e with
  | [] => false
  | cs =>
      forallb (λ c, bool_decide (touch_identifier c ∉ ids (ongoingTouches s)))
              cs
  end.

(** The events of a gesture outside scroll mode during which two or more
    touches stay active. *)
Fixpoint twoOrMore (evs : list Event) (s : State) : bool :=
  match evs with
  | [] => true
  | ev :: evs' =>
      let s' := (step ev s).1 in
      match ev with
      | TouchStart e => bringsNewTouches e s
      | TouchMove scrollMode _ _ => negb scrollMode
      | _ => true
      end
      && bool_decide (2 ≤ length (ongoingTouches s'))
      && twoOrMore evs' s'
  end.

(** The same event with [localStorage] holding [store] instead. *)
Definition withStorage (store : option (gmap string string)) (ev : Event)
  : Event :=
  match ev with
  | TouchMove scrollMode _ e => TouchMove scrollMode store e
  | _ => ev
  end.

Definition setLastEndTimeStamp (s : State) (now : float) : State :=
  {| ongoingTouches := ongoingTouches s; moved := moved s;
     startTimeStamp := startTimeStamp s;
     lastEndTimeStamp := now;
     releasedCount := releasedCount s; dragging := dragging s;
     draggingTimeout := draggingTimeout s;
     lastPinchDist := lastPinchDist s; pinching := pinching s;
     isTracking := isTracking s |}.

End Gesture.

(** Kinds of messages. *)
Definition isZoom (m : Msg) : bool :=
  match m with Zoom _ => true | _ => false end.
Definition isScroll (m : Msg) : bool :=
  match m with Scroll _ _ => true | _ => false end.
Definition isClick (m : Msg) : bool :=
  match m with Click _ _ => true | _ => false end.
Definition isPress (m : Msg) : bool :=
  match m with Click _ true => true | _ => false end.
Definition isRelease (m : Msg) : bool :=
  match m with Click _ false => true | _ => false end.
Definition isLeftPress (m : Msg) : bool :=
  match m with Click Left true => true | _ => false end.
Definition isLeftRelease (m : Msg) : bool :=
  match m with Click Left false => true | _ => false end.

(** ** Sample configuration

    [utils/math] is not part of the sources at hand, so the examples below
    run the handlers on sample values of its constants. *)

Module Sample.

(** Modelled from the spec: the move-threshold table, the timeout, the
    pinch threshold and the acceleration curve of [utils/math] are missing;
    these are sample values (one threshold each for one, two and three
    touches, the 300 ms timeout of the spec's example, a pinch threshold
    below the 20 px of its example, a constant multiplier 1). *)
Definition TOUCH_MOVE_THRESHOLD : list float := [10%float; 15%float; 15%float].
Definition TOUCH_TIMEOUT : float := 300%float.
Definition PINCH_THRESHOLD : float := 10%float.
Definition calculateAccelerationMult (speed : float) : float := 1%float.

Definition digit (c : Ascii.ascii) : option Z :=
  let n := (Z.of_nat (Ascii.nat_of_ascii c) - 48)%Z in
  if bool_decide (0 ≤ n ≤ 9)%Z then Some n else None.

(** Reads the longest prefix of digits: its value after [acc], the number
    of digits read after [n], and the rest of the string. *)
Fixpoint readDigits (s : string) (acc : Z) (n : nat) : Z * nat * string :=
  match s with
  | String c s' =>
      match digit c with
      | Some d => readDigits s' (10 * acc + d)%Z (S n)
      | None => (acc, n, s)
      end
  | EmptyString => (acc, n, s)
  end.

Definition ofZ (z : Z) : float := PrimFloat.of_uint63 (Uint63.of_Z z).

Definition unsignedDecimal (s : string) : float :=
  let '(i, ni, rest) := readDigits s 0 0 in
  match rest with
  | EmptyString => if bool_decide (ni = 0) then nan else ofZ i
  | String "."%char rest' =>
      let '(f, nf, rest'') := readDigits rest' 0 0 in
      match rest'' with
      | EmptyString =>
          if bool_decide (ni + nf = 0) then nan
          else (ofZ (i * 10 ^ Z.of_nat nf + f) / ofZ (10 ^ Z.of_nat nf))%float
      | _ => nan
      end
  | _ => nan
  end.

(** Modelled from the spec: the built-in [Number] applied to a string, on
    signed decimal literals without exponent (the form [String(n)] stores
    for the values of the sensitivity slider) and on the empty string;
    exact up to 15 digits.  Every other string is sent to NaN here, which
    the built-in does for text that is not numeric. *)
Definition Number (s : string) : float :=
  match s with
  | EmptyString => 0%float
  | String "-"%char s' => (- unsignedDecimal s')%float
  | String "+"%char s' => unsignedDecimal s'
  | _ => unsignedDecimal s
  end.

Definition getClientSettings := getClientSettings Number.
Definition moveBatch :=
  moveBatch TOUCH_MOVE_THRESHOLD TOUCH_TIMEOUT calculateAccelerationMult.
Definition dispatch := dispatch TOUCH_TIMEOUT PINCH_THRESHOLD Number.
Definition handleTouchMove :=
  handleTouchMove TOUCH_MOVE_THRESHOLD TOUCH_TIMEOUT PINCH_THRESHOLD
                  calculateAccelerationMult Number.
Definition handleTouchEnd :=
  handleTouchEnd TOUCH_MOVE_THRESHOLD TOUCH_TIMEOUT.
Definition step :=
  step TOUCH_MOVE_THRESHOLD TOUCH_TIMEOUT PINCH_THRESHOLD
       calculateAccelerationMult Number.
Definition run :=
  run TOUCH_MOVE_THRESHOLD TOUCH_TIMEOUT PINCH_THRESHOLD
      calculateAccelerationMult Number.

Definition reachable :=
  reachable TOUCH_MOVE_THRESHOLD TOUCH_TIMEOUT PINCH_THRESHOLD
            calculateAccelerationMult Number.

Definition touch (id : Z) (x y : float) : Touch :=
  {| touch_identifier := id; touch_pageX := x; touch_pageY := y |}.

Definition at_ (t : float) (cs : list Touch) : TouchEvent :=
  {| ev_timeStamp := t; changedTouches := cs |}.

Definition fourTouches : list Touch :=
  [touch 1 0 0; touch 2 50 0; touch 3 100 0; touch 4 150 0].

(** [localStorage] holding the sensitivity [s] and the invert flag [i],
    each if given. *)
Definition stored (s i : option string) : option (gmap string string) :=
  let m0 : gmap string string := ∅ in
  let m1 := match s with Some v => <[SENSITIVITY := v]> m0 | None => m0 end in
  Some (match i with Some v => <[INVERT := v]> m1 | None => m1 end).

End Sample.

(** ** The modifier buffer of the trackpad page *)

Module Modifier.

Inductive ModifierState := Release | Active | Hold.

(** What the page hands to the connection: [send({type: 'key', key})] and
    [sendCombo(keys)]. *)
Inductive Sent :=
| Key (key : string)
| Combo (keys : list string).

(** The [modifier] and [buffer] state of the page. *)
Record Page := mkPage {
  modifier : ModifierState;
  buffer : list string
}.

Global Instance ModifierState_eq_dec : EqDecision ModifierState.
Proof. solve_decision. Defined.

(** [buffer.slice(0, -1)] *)
Definition dropLast (buffer : list string) : list string :=
  take (length buffer - 1) buffer.

Definition handleModifierState (p : Page) : Page :=
  match modifier p with
  | Active =>
      if bool_decide (0 < length (buffer p))
      then {| modifier := Hold; buffer := buffer p |}
      else {| modifier := Release; buffer := buffer p |}
  | Hold => {| modifier := Release; buffer := [] |}
  | Release => {| modifier := Active; buffer := [] |}
  end.

Definition handleModifier (key : string) (p : Page) : Page * list Sent :=
  match modifier p with
  | Hold => (p, [Combo (buffer p ++ [key])])
  | Active => ({| modifier := modifier p; buffer := buffer p ++ [key] |}, [])
  | Release => (p, [])
  end.

Section Keys.

(** The built-in [String.prototype.toLowerCase]. *)
Variable toLowerCase : string → string.

(** The result holds the page, what was sent, and whether
    [e.preventDefault()] was called; [eKey] is [e.key]. *)
Definition handleKeyDown (eKey : string) (p : Page)
  : Page * list Sent * bool :=
  let key := toLowerCase eKey in
  if bool_decide (modifier p ≠ Release) then
    if bool_decide (key = "backspace"%string) then
      ({| modifier := modifier p; buffer := dropLast (buffer p) |}, [], true)
    else if bool_decide (key = "escape"%string) then
      ({| modifier := Release; buffer := [] |}, [], true)
    else if bool_decide (key ≠ "unidentified"%string)
            && bool_decide (1 < JS.length key) then
      (handleModifier key p, true)
    else (p, [], false)
  else
    if bool_decide (key = "backspace"%string) then
      (p, [Key "backspace"%string], false)
    else if bool_decide (key = "enter"%string) then
      (p, [Key "enter"%string], false)
    else if bool_decide (key ≠ "unidentified"%string)
            && bool_decide (1 < JS.length key) then
      (p, [Key key], false)
    else (p, [], false).

End Keys.

(** Keys delivered one after the other through [handleModifier]. *)
Fixpoint deliver (keys : list string) (p : Page) : Page * list Sent :=
  match keys with
  | [] => (p, [])
  | key :: keys' =>
      let '(p1, out1) := handleModifier key p in
      let '(p2, out2) := deliver keys' p1 in
      (p2, out1 ++ out2)
  end.

(** Lower case of the letters A to Z, as [toLowerCase] has it on the names
    of keys. *)
Definition asciiLower (c : ascii) : ascii :=
  let n := nat_of_ascii c in
  if bool_decide (65 ≤ n ≤ 90) then ascii_of_nat (n + 32) else c.

Fixpoint lowerCase (s : string) : string :=
  match s with
  | EmptyString => EmptyString
  | String c s' => String (asciiLower c) (lowerCase s')
  end.

End Modifier.

(** ** More of the gesture hook: whole sessions *)

(** What the tap branch of [handleTouchEnd] sends for a release count: a
    press for the left button, a press and its release for the right and the
    middle one, nothing for a count that names no button. *)
Definition tapClicks (released : nat) : list Msg :=
  match tapButton released with
  | Some Left => [Click Left true]
  | Some button => [Click button true; Click button false]
  | None => []
  end.

(** The object a tracked touch is after the turn of the loop of
    [handleTouchMove] for the contact [touch]. *)
Definition moveTo (now : float) (tracked : TrackedTouch) (touch : Touch)
  : TrackedTouch :=
  {| identifier := identifier tracked;
     pageX := touch_pageX touch; pageY := touch_pageY touch;
     pageXStart := pageXStart tracked; pageYStart := pageYStart tracked;
     timeStamp := now |}.

(** Fingers being lifted: of the [n] touches of a session that started at
    [start] some are still active, the others are counted as released, and
    no movement has been registered; [drag] is the drag state. *)
Definition lifting (n : nat) (start : float) (drag : bool) (s : State) : Prop :=
  moved s = false ∧ startTimeStamp s = start
  ∧ releasedCount s + length (ongoingTouches s) = n
  ∧ 0 < length (ongoingTouches s)
  ∧ dragging s = drag ∧ draggingTimeout s = None.

(** All fingers lifted and the session evaluated. *)
Definition lifted (s : State) : Prop :=
  ongoingTouches s = [] ∧ releasedCount s = 0.

(** Whether the left button is held down on the other side, as far as the
    state tells: a drag is on or the release of a tap is still scheduled. *)
Definition leftHeld (s : State) : bool :=
  match draggingTimeout s with
  | Some _ => true
  | None => dragging s
  end.

(** Follows the left button through the messages sent, from [held]: [None]
    when a press comes while the button is down or a release while it is
    up, else the state of the button at the end. *)
Fixpoint leftButton (held : bool) (out : list Msg) : option bool :=
  match out with
  | [] => Some held
  | Click Left press :: out' =>
      if Bool.eqb press held then None else leftButton press out'
  | _ :: out' => leftButton held out'
  end.

(** An event of a gesture made in scroll mode. *)
Definition inScrollMode (ev : Event) : bool :=
  match ev with
  | TouchMove scrollMode _ _ => scrollMode
  | _ => true
  end.

Definition isMoveMsg (m : Msg) : bool :=
  match m with Move _ _ => true | _ => false end.

Section GestureSessions.

Variable TOUCH_TIMEOUT : float.

(** A touch-end earlier than the timeout after [start]. *)
Definition endWithin (start : float) (ev : Event) : bool :=
  match ev with
  | TouchEnd e => JS.lt (ev_timeStamp e - start)%float TOUCH_TIMEOUT
  | _ => false
  end.

(** A touch-move earlier than the timeout after [since]. *)
Definition moveWithin (since : float) (ev : Event) : bool :=
  match ev with
  | TouchMove _ _ m => JS.lt (ev_timeStamp m - since)%float TOUCH_TIMEOUT
  | _ => false
  end.

End GestureSessions.

(** ** The client settings on the settings page *)

Module SettingsPage.

Definition DEFAULT_SENSITIVITY : float := 1.0%float.
Definition DEFAULT_INVERT : bool := false.

(** The refs that guard the persisting effects. *)
Record Flags := mkFlags {
  hasLoadedFromStorage : bool;
  isFirstSensitivity : bool;
  isFirstInvert : bool
}.

(** [String(invertScroll)] *)
Definition stringOfBool (b : bool) : string :=
  if b then "true"%string else "false"%string.

Section Page.

(** The built-in conversions [Number] and [String] (of a number). *)
Variable Number : string → float.
Variable stringOfNumber : float → string.

(** The part of the loading effect that reads the client settings into the
    [sensitivity] and [invertScroll] state, [current] being the state
    before; the page uses the keys the gesture hook uses. *)
Definition loadClientSettings (current : ClientSettings)
    (store : gmap string string) : ClientSettings :=
  let sensitivity' :=
    match store !! SENSITIVITY with
    | Some s =>
        let n := Number s in
        if negb (JS.isNaN n) then n else sensitivity current
    | None => sensitivity current
    end in
  let inv := store !! INVERT in
  let invert1 :=
    if bool_decide (inv = Some "true"%string) then true else invert current in
  let invert2 :=
    if bool_decide (inv = Some "false"%string) then false else invert1 in
  {| sensitivity := sensitivity'; invert := invert2 |}.

(** The loading effect ends by setting [hasLoadedFromStorage]. *)
Definition loaded (flags : Flags) : Flags :=
  {| hasLoadedFromStorage := true;
     isFirstSensitivity := isFirstSensitivity flags;
     isFirstInvert := isFirstInvert flags |}.

(** The effect that persists the sensitivity, run for the value
    [sensitivity]; [window] tells whether [typeof window] is defined. *)
Definition persistSensitivity (window : bool) (sensitivity : float)
    (flags : Flags) (store : gmap string string)
  : Flags * gmap string string :=
  if negb window || negb (hasLoadedFromStorage flags) then (flags, store)
  else if isFirstSensitivity flags then
    ({| hasLoadedFromStorage := hasLoadedFromStorage flags;
        isFirstSensitivity := false;
        isFirstInvert := isFirstInvert flags |}, store)
  else (flags, <[SENSITIVITY := stringOfNumber sensitivity]> store).

(** The effect that persists the invert flag. *)
Definition persistInvert (window : bool) (invertScroll : bool)
    (flags : Flags) (store : gmap string string)
  : Flags * gmap string string :=
  if negb window || negb (hasLoadedFromStorage flags) then (flags, store)
  else if isFirstInvert flags then
    ({| hasLoadedFromStorage := hasLoadedFromStorage flags;
        isFirstSensitivity := isFirstSensitivity flags;
        isFirstInvert := false |}, store)
  else (flags, <[INVERT := stringOfBool invertScroll]> store).

End Page.

(** The theme names and the storage key of the configuration module. *)
Definition THEME_LIGHT : string := "cupcake"%string.
Definition THEME_DARK : string := "dracula"%string.
Definition THEME_DEFAULT : string := "dracula"%string.
Definition THEME : string := "rein-theme"%string.
Definition IP : string := "rein_ip"%string.

(** The part of the loading effect that reads the theme into the [theme]
    state, [current] being the state before. *)
Definition loadTheme (current : string) (store : gmap string string)
  : string :=
  match store !! THEME with
  | Some t =>
      if bool_decide (t = THEME_LIGHT) || bool_decide (t = THEME_DARK)
      then t else current
  | None => current
  end.

(** [a || b] where [a] is a string or [null]: [b] when [a] is [null] or
    empty. *)
Definition orElse (a : option string) (b : string) : string :=
  match a with
  | Some s => if bool_decide (s = ""%string) then b else s
  | None => b
  end.

(** The part of the loading effect that sets the [ip] state; [hostname] is
    [window.location.hostname]. *)
Definition loadIp (hostname : string) (store : gmap string string) : string :=
  let storedIp := store !! IP in
  let defaultIp := orElse (Some hostname) "localhost"%string in
  orElse storedIp defaultIp.

(** The storing part of the effect that runs when [ip] changes. *)
Definition persistIp (ip : string) (store : gmap string string)
  : gmap string string :=
  if bool_decide (ip = ""%string) then store else <[IP := ip]> store.

End SettingsPage.

(** ** Text input and the extra keys of the trackpad page *)

Module TextInput.

Import Modifier.

(** What the page sends: keys and combos as before, and
    [send({type: 'text', text})]. *)
Inductive Output :=
| Keys (sent : Sent)
| Text (text : string).

Definition isText (o : Output) : bool :=
  match o with Text _ => true | _ => false end.

(** The page state the input handlers read and write: [modifier] and
    [buffer], and the ref [isComposingRef]. *)
Record Input := mkInput {
  page : Page;
  isComposing : bool
}.

Definition sendText (val : string) : list Output :=
  if bool_decide (val = ""%string) then []
  else [Text (if bool_decide (1 < JS.length val)
              then (val +:+ " ")%string else val)].

(** The branch both input handlers share: the value goes to the buffer
    logic while a modifier is on and is sent as text otherwise. *)
Definition deliverValue (val : string) (p : Page) : Page * list Output :=
  if bool_decide (modifier p ≠ Release) then
    let '(p', out) := handleModifier val p in (p', Keys <$> out)
  else (p, sendText val).

(** The handlers take the value of the hidden input and return, with the
    state and what was sent, the value they leave in it. *)
Definition handleInput (val : string) (st : Input)
  : Input * string * list Output :=
  if isComposing st then (st, val, [])
  else if bool_decide (val ≠ ""%string) then
    let '(p', out) := deliverValue val (page st) in
    ({| page := p'; isComposing := isComposing st |}, ""%string, out)
  else (st, val, []).

Definition handleCompositionStart (st : Input) : Input :=
  {| page := page st; isComposing := true |}.

Definition handleCompositionEnd (val : string) (st : Input)
  : Input * string * list Output :=
  if bool_decide (val ≠ ""%string) then
    let '(p', out) := deliverValue val (page st) in
    ({| page := p'; isComposing := false |}, ""%string, out)
  else ({| page := page st; isComposing := false |}, val, []).

(** [buffer.join(" + ")], the text of the buffer bar, which is shown when
    the text is not empty. *)
Fixpoint join (sep : string) (l : list string) : string :=
  match l with
  | [] => ""%string
  | [x] => x
  | x :: l' => (x +:+ sep +:+ join sep l')%string
  end.

Definition bufferText (p : Page) : string := join " + "%string (buffer p).

(** The [sendKey] prop handed to the extra keys. *)
Definition sendKey (k : string) (p : Page) : Page * list Sent :=
  if bool_decide (modifier p ≠ Release) then handleModifier k p
  else (p, [Key k]).

(** The events of the hidden input, each with the value of the input at
    that time. *)
Inductive InputEvent :=
| Change (val : string)
| CompositionStart
| CompositionEnd (val : string).

Definition inputStep (ev : InputEvent) (st : Input) : Input * list Output :=
  match ev with
  | Change val => let '(st', _, out) := handleInput val st in (st', out)
  | CompositionStart => (handleCompositionStart st, [])
  | CompositionEnd val =>
      let '(st', _, out) := handleCompositionEnd val st in (st', out)
  end.

Fixpoint inputRun (evs : list InputEvent) (st : Input) : Input * list Output :=
  match evs with
  | [] => (st, [])
  | ev :: evs' =>
      let '(st1, out1) := inputStep ev st in
      let '(st2, out2) := inputRun evs' st1 in
      (st2, out1 ++ out2)
  end.

End TextInput.

(** * Facts *)

(** ** Comparisons of numbers *)

Lemma SFcompare_antisym (a b : spec_float) (c : comparison) :
  SFcompare a b = Some c → SFcompare b a = Some (CompOpp c).
Proof.
  destruct a as [sa|sa| |sa ma ea], b as [sb|sb| |sb mb eb]; simpl;
    try discriminate;
    try (destruct sa; intros [= <-]; reflexivity);
    try (destruct sb; intros [= <-]; reflexivity);
    try (intros [= <-]; reflexivity).
  - destruct sa, sb; intros [= <-]; reflexivity.
  - intros [= <-]. f_equal.
    rewrite !Pos.compare_cont_spec. simpl.
    rewrite (Z.compare_antisym ea eb), (Pos.compare_antisym ma mb).
    destruct sa, sb; try reflexivity;
      destruct (ea ?= eb)%Z; simpl; try reflexivity;
      destruct (ma ?= mb)%positive; reflexivity.
Qed.

Lemma lt_not_ge (x y : float) : JS.lt x y = true → JS.ge x y = false.
Proof.
  unfold JS.lt, JS.ge. rewrite ltb_spec, leb_spec. unfold SFltb, SFleb.
  destruct (SFcompare (Prim2SF x) (Prim2SF y)) as [[]|] eqn:E; try discriminate.
  intros _. by rewrite (SFcompare_antisym _ _ _ E).
Qed.

Lemma lt_not_gt (x y : float) : JS.lt x y = true → JS.gt x y = false.
Proof.
  unfold JS.lt, JS.gt. rewrite !ltb_spec. unfold SFltb.
  destruct (SFcompare (Prim2SF x) (Prim2SF y)) as [[]|] eqn:E; try discriminate.
  intros _. by rewrite (SFcompare_antisym _ _ _ E).
Qed.

(** ** The list of tracked touches *)

Lemma State_eta (s : State) :
  {| ongoingTouches := ongoingTouches s; moved := moved s;
     startTimeStamp := startTimeStamp s;
     lastEndTimeStamp := lastEndTimeStamp s;
     releasedCount := releasedCount s; dragging := dragging s;
     draggingTimeout := draggingTimeout s;
     lastPinchDist := lastPinchDist s; pinching := pinching s;
     isTracking := isTracking s |} = s.
Proof. by destruct s. Qed.

Lemma length_ids (ts : list TrackedTouch) : length (ids ts) = length ts.
Proof. apply length_fmap. Qed.

Lemma findTouch_Some (ts : list TrackedTouch) id i t :
  findTouch ts id = Some (i, t) → ts !! i = Some t ∧ identifier t = id.
Proof. intros (? & ? & _)%list_find_Some. done. Qed.

Lemma findTouch_None (ts : list TrackedTouch) id :
  findTouch ts id = None ↔ id ∉ ids ts.
Proof.
  unfold findTouch, ids. rewrite list_find_None, Forall_forall. split.
  - intros H (t & -> & Ht)%list_elem_of_fmap. by apply (H t).
  - intros H t Ht <-. apply H. by apply list_elem_of_fmap_2.
Qed.

Lemma findTouchIndex_None (ts : list TrackedTouch) id :
  findTouchIndex ts id = None ↔ id ∉ ids ts.
Proof.
  unfold findTouchIndex. rewrite fmap_None. apply findTouch_None.
Qed.

Lemma findTouchIndex_Some (ts : list TrackedTouch) id i :
  findTouchIndex ts id = Some i →
  ∃ t, ts !! i = Some t ∧ identifier t = id.
Proof.
  unfold findTouchIndex. intros ([j t] & H & ->)%fmap_Some.
  exists t. by apply findTouch_Some.
Qed.

Lemma findTouch_nil id : findTouch [] id = None.
Proof. done. Qed.

(** Overwriting a tracked touch by one with the same identifier keeps the
    identifiers as they are. *)
Lemma ids_insert_same (ts : list TrackedTouch) i t t' :
  ts !! i = Some t → identifier t' = identifier t →
  ids (<[i := t']> ts) = ids ts.
Proof.
  intros Hi Hid. unfold ids. rewrite list_fmap_insert, Hid.
  apply list_insert_id. by rewrite list_lookup_fmap, Hi.
Qed.

(** *** The loop of [handleTouchStart] *)

Lemma ids_startTouch now ts c :
  ids (startTouch now ts c) =
  if decide (touch_identifier c ∈ ids ts) then ids ts
  else ids ts ++ [touch_identifier c].
Proof.
  unfold startTouch.
  destruct (findTouchIndex ts (touch_identifier c)) as [i|] eqn:E.
  - destruct (findTouchIndex_Some _ _ _ E) as (t & Hi & Hid).
    rewrite (ids_insert_same _ _ t) by done.
    rewrite decide_True; [done|].
    rewrite <- Hid. apply list_elem_of_fmap_2. by eapply list_elem_of_lookup_2.
  - apply findTouchIndex_None in E. rewrite decide_False by done.
    unfold ids. by rewrite fmap_app.
Qed.

Lemma NoDup_startTouch now ts c :
  NoDup (ids ts) → NoDup (ids (startTouch now ts c)).
Proof.
  intros H. rewrite ids_startTouch. case_decide; [done|].
  apply NoDup_app. split_and!; [done| |apply NoDup_singleton].
  intros x Hx ->%list_elem_of_singleton. done.
Qed.

Lemma length_startTouch now ts c :
  length (startTouch now ts c) =
  if decide (touch_identifier c ∈ ids ts) then length ts else S (length ts).
Proof.
  rewrite <- !length_ids, ids_startTouch.
  case_decide; [done|]. rewrite length_app. simpl. lia.
Qed.

Lemma NoDup_foldl_startTouch now cs ts :
  NoDup (ids ts) → NoDup (ids (foldl (startTouch now) ts cs)).
Proof.
  revert ts. induction cs as [|c cs IH]; intros ts H; [done|].
  simpl. by apply IH, NoDup_startTouch.
Qed.

Lemma length_foldl_startTouch_ge now cs ts :
  length ts ≤ length (foldl (startTouch now) ts cs).
Proof.
  revert ts. induction cs as [|c cs IH]; intros ts; [done|].
  simpl. etrans; [|apply IH]. rewrite length_startTouch. case_decide; lia.
Qed.

Lemma foldl_startTouch_nonempty now cs ts :
  cs ≠ [] → foldl (startTouch now) ts cs ≠ [].
Proof.
  destruct cs as [|c cs]; [done|]. intros _ E. simpl in E.
  pose proof (length_foldl_startTouch_ge now cs (startTouch now ts c)) as H.
  rewrite E, length_startTouch in H. simpl in H. case_decide as Hin; [|lia].
  destruct ts; [by apply elem_of_nil in Hin | simpl in H; lia].
Qed.

(** A batch that starts with a new identifier makes the list longer. *)
Lemma length_foldl_startTouch_new now c cs ts :
  touch_identifier c ∉ ids ts →
  S (length ts) ≤ length (foldl (startTouch now) ts (c :: cs)).
Proof.
  intros H. simpl. etrans; [|apply length_foldl_startTouch_ge].
  rewrite length_startTouch. by rewrite decide_False.
Qed.

(** New, pairwise distinct identifiers are appended in the order of the
    batch. *)
Lemma ids_foldl_startTouch_new now cs ts :
  NoDup (touch_ids cs) → (∀ id, id ∈ touch_ids cs → id ∉ ids ts) →
  ids (foldl (startTouch now) ts cs) = ids ts ++ touch_ids cs.
Proof.
  revert ts. induction cs as [|c cs IH]; intros ts Hnd Hnew; simpl.
  - by rewrite app_nil_r.
  - apply NoDup_cons in Hnd as [Hc Hnd].
    assert (Hts : touch_identifier c ∉ ids ts) by (apply Hnew; left).
    rewrite IH; [|done|].
    + rewrite ids_startTouch, decide_False by done. by rewrite <- app_assoc.
    + intros id Hid. rewrite ids_startTouch, decide_False by done.
      rewrite elem_of_app, list_elem_of_singleton. intros [?| ->].
      * eapply Hnew; [by right|done].
      * done.
Qed.

(** *** The loop of [handleTouchEnd] *)

Lemma endTouch_unknown ts rc c :
  touch_identifier c ∉ ids ts → endTouch (ts, rc) c = (ts, rc).
Proof.
  intros H%findTouchIndex_None. unfold endTouch. simpl. by rewrite H.
Qed.

Lemma endTouch_conserve acc c :
  length (endTouch acc c).1 + (endTouch acc c).2 = length acc.1 + acc.2.
Proof.
  unfold endTouch.
  destruct (findTouchIndex acc.1 (touch_identifier c)) as [i|] eqn:E; [|done].
  destruct (findTouchIndex_Some _ _ _ E) as (t & Hi & _). simpl.
  rewrite length_delete by eauto.
  apply lookup_lt_Some in Hi. lia.
Qed.

Lemma foldl_endTouch_conserve cs acc :
  length (foldl endTouch acc cs).1 + (foldl endTouch acc cs).2
  = length acc.1 + acc.2.
Proof.
  revert acc. induction cs as [|c cs IH]; intros acc; [done|].
  simpl. rewrite IH. apply endTouch_conserve.
Qed.

Lemma endTouch_sublist acc c : ids (endTouch acc c).1 `sublist_of` ids acc.1.
Proof.
  unfold endTouch.
  destruct (findTouchIndex acc.1 (touch_identifier c)); [|done].
  simpl. unfold ids. rewrite list_fmap_delete. apply sublist_delete.
Qed.

Lemma foldl_endTouch_sublist cs acc :
  ids (foldl endTouch acc cs).1 `sublist_of` ids acc.1.
Proof.
  revert acc. induction cs as [|c cs IH]; intros acc; [done|].
  simpl. etrans; [apply IH | apply endTouch_sublist].
Qed.

Lemma foldl_endTouch_unknown cs ts rc :
  (∀ id, id ∈ touch_ids cs → id ∉ ids ts) →
  foldl endTouch (ts, rc) cs = (ts, rc).
Proof.
  induction cs as [|c cs IH]; intros H; [done|].
  simpl. rewrite endTouch_unknown by (apply H; left).
  apply IH. intros id Hid. apply H. by right.
Qed.

Lemma foldl_endTouch_nil cs rc : foldl endTouch ([], rc) cs = ([], rc).
Proof. apply foldl_endTouch_unknown. intros id _. apply not_elem_of_nil. Qed.

(** A batch that names every tracked touch releases them all. *)
Lemma foldl_endTouch_all cs ts rc :
  NoDup (ids ts) → (∀ id, id ∈ ids ts → id ∈ touch_ids cs) →
  foldl endTouch (ts, rc) cs = ([], rc + length ts).
Proof.
  revert ts rc. induction cs as [|c cs IH]; intros ts rc Hnd Hall.
  - destruct ts as [|t ts]; [simpl; f_equal; lia|].
    exfalso. eapply not_elem_of_nil, (Hall (identifier t)). left.
  - simpl. unfold endTouch at 2. simpl.
    destruct (findTouchIndex ts (touch_identifier c)) as [i|] eqn:E.
    + destruct (findTouchIndex_Some _ _ _ E) as (t & Hi & Hid).
      assert (Hids : ids (delete i ts) = delete i (ids ts))
        by apply list_fmap_delete.
      rewrite IH.
      * f_equal. rewrite length_delete by eauto.
        apply lookup_lt_Some in Hi. lia.
      * rewrite Hids. eapply sublist_NoDup; [done|apply sublist_delete].
      * intros id Hin. rewrite Hids in Hin.
        assert (Hin' : id ∈ ids ts).
        { eapply sublist_subseteq; [apply sublist_delete|done]. }
        specialize (Hall id Hin'). apply elem_of_cons in Hall as [->|]; [|done].
        exfalso. apply list_elem_of_lookup in Hin as [j Hj].
        assert (Hi' : ids ts !! i = Some (touch_identifier c)).
        { unfold ids. by rewrite list_lookup_fmap, Hi, <- Hid. }
        rewrite list_lookup_delete in Hj.
        case_decide.
        -- assert (j = i) by (eapply NoDup_lookup; eauto). lia.
        -- assert (S j = i) by (eapply NoDup_lookup; eauto). lia.
    + apply findTouchIndex_None in E. apply IH; [done|].
      intros id Hin. specialize (Hall id Hin).
      apply elem_of_cons in Hall as [->|]; done.
Qed.

(** ** The handlers *)

Section GestureFacts.

Context (TOUCH_MOVE_THRESHOLD : list float)
        (TOUCH_TIMEOUT PINCH_THRESHOLD : float)
        (calculateAccelerationMult : float → float)
        (Number : string → float).

Local Abbreviation getClientSettings := (getClientSettings Number).
Local Abbreviation moveThreshold := (moveThreshold TOUCH_MOVE_THRESHOLD).
Local Abbreviation moveTouch :=
  (moveTouch TOUCH_MOVE_THRESHOLD TOUCH_TIMEOUT calculateAccelerationMult).
Local Abbreviation moveBatch :=
  (moveBatch TOUCH_MOVE_THRESHOLD TOUCH_TIMEOUT calculateAccelerationMult).
Local Abbreviation afterMoveBatch :=
  (afterMoveBatch TOUCH_MOVE_THRESHOLD TOUCH_TIMEOUT
                  calculateAccelerationMult).
Local Abbreviation dispatch := (dispatch TOUCH_TIMEOUT PINCH_THRESHOLD Number).
Local Abbreviation handleTouchMove :=
  (handleTouchMove TOUCH_MOVE_THRESHOLD TOUCH_TIMEOUT PINCH_THRESHOLD
                   calculateAccelerationMult Number).
Local Abbreviation handleTouchEnd :=
  (handleTouchEnd TOUCH_MOVE_THRESHOLD TOUCH_TIMEOUT).
Local Abbreviation step :=
  (step TOUCH_MOVE_THRESHOLD TOUCH_TIMEOUT PINCH_THRESHOLD
        calculateAccelerationMult Number).
Local Abbreviation run :=
  (run TOUCH_MOVE_THRESHOLD TOUCH_TIMEOUT PINCH_THRESHOLD
       calculateAccelerationMult Number).
Local Abbreviation reachable :=
  (reachable TOUCH_MOVE_THRESHOLD TOUCH_TIMEOUT PINCH_THRESHOLD
             calculateAccelerationMult Number).
Local Abbreviation Inv := (Inv TOUCH_MOVE_THRESHOLD).
Local Abbreviation tapMove := (tapMove TOUCH_TIMEOUT).
Local Abbreviation tapped := (tapped TOUCH_TIMEOUT).
Local Abbreviation staysActive :=
  (staysActive TOUCH_MOVE_THRESHOLD TOUCH_TIMEOUT PINCH_THRESHOLD
               calculateAccelerationMult Number).
Local Abbreviation twoOrMore :=
  (twoOrMore TOUCH_MOVE_THRESHOLD TOUCH_TIMEOUT PINCH_THRESHOLD
             calculateAccelerationMult Number).

(** *** Running events *)

Lemma run_app evs1 evs2 s :
  run (evs1 ++ evs2) s =
  ((run evs2 (run evs1 s).1).1, (run evs1 s).2 ++ (run evs2 (run evs1 s).1).2).
Proof.
  revert s. induction evs1 as [|ev evs1 IH]; intros s; simpl.
  - by destruct (run evs2 s).
  - destruct (step ev s) as [s1 out1]. rewrite IH.
    destruct (run evs1 s1) as [s2 out2]. simpl.
    destruct (run evs2 s2) as [s3 out3]. simpl. by rewrite app_assoc.
Qed.

Lemma run_cons ev evs s :
  run (ev :: evs) s =
  ((run evs (step ev s).1).1, (step ev s).2 ++ (run evs (step ev s).1).2).
Proof.
  simpl. destruct (step ev s) as [s1 out1]. simpl.
  by destruct (run evs s1).
Qed.

(** *** The loop of [handleTouchMove] *)

Lemma moveTouch_unknown now start acc c :
  touch_identifier c ∉ ids (acc_touches acc) →
  moveTouch now start acc c = acc.
Proof.
  intros H%findTouch_None. unfold moveTouch. by rewrite H.
Qed.

Lemma ids_moveTouch now start acc c :
  ids (acc_touches (moveTouch now start acc c)) = ids (acc_touches acc).
Proof.
  unfold moveTouch.
  destruct (findTouch _ _) as [[i t]|] eqn:E; [|done].
  apply findTouch_Some in E as [Hi _].
  destruct (JS.gt _ _); simpl; by apply (ids_insert_same _ _ t).
Qed.

Lemma moved_moveTouch now start acc c :
  acc_moved acc = true → acc_moved (moveTouch now start acc c) = true.
Proof.
  intros H. unfold moveTouch.
  destruct (findTouch _ _) as [[i t]|]; [|done].
  rewrite H. by destruct (JS.gt _ _).
Qed.

Lemma ids_foldl_moveTouch now start cs acc :
  ids (acc_touches (foldl (moveTouch now start) acc cs))
  = ids (acc_touches acc).
Proof.
  revert acc. induction cs as [|c cs IH]; intros acc; [done|].
  simpl. rewrite IH. apply ids_moveTouch.
Qed.

Lemma moved_foldl_moveTouch now start cs acc :
  acc_moved acc = true →
  acc_moved (foldl (moveTouch now start) acc cs) = true.
Proof.
  revert acc. induction cs as [|c cs IH]; intros acc H; [done|].
  simpl. by apply IH, moved_moveTouch.
Qed.

Lemma foldl_moveTouch_unknown now start cs acc :
  (∀ id, id ∈ touch_ids cs → id ∉ ids (acc_touches acc)) →
  foldl (moveTouch now start) acc cs = acc.
Proof.
  induction cs as [|c cs IH]; intros H; [done|].
  simpl. rewrite moveTouch_unknown by (apply H; left).
  apply IH. intros id Hid. apply H. by right.
Qed.

Lemma ids_moveBatch e s :
  ids (acc_touches (moveBatch e s)) = ids (ongoingTouches s).
Proof. apply ids_foldl_moveTouch. Qed.

Lemma length_moveBatch e s :
  length (acc_touches (moveBatch e s)) = length (ongoingTouches s).
Proof. by rewrite <- !length_ids, ids_moveBatch. Qed.

Lemma moved_moveBatch e s :
  moved s = true → acc_moved (moveBatch e s) = true.
Proof. intros H. by apply moved_foldl_moveTouch. Qed.

Lemma moveBatch_unknown e s :
  (∀ id, id ∈ touch_ids (changedTouches e) → id ∉ ids (ongoingTouches s)) →
  moveBatch e s =
  {| acc_touches := ongoingTouches s; acc_moved := moved s;
     sumX := 0%float; sumY := 0%float |}.
Proof. intros H. by apply foldl_moveTouch_unknown. Qed.

(** *** What [handleTouchMove] leaves alone *)

(** The dispatch step touches the pinch baseline and flag only. *)
Lemma dispatch_frame scrollMode store now s sx sy :
  ∃ dist p, (dispatch scrollMode store now s sx sy).1 = setPinch s dist p
            ∧ (length (ongoingTouches s) ≠ 2 →
               dist = lastPinchDist s ∧ p = pinching s)
            ∧ (pinching s = true → p = true).
Proof.
  unfold dispatch.
  assert (Hs : s = setPinch s (lastPinchDist s) (pinching s)) by by destruct s.
  destruct (moved s && _); [|by eexists _, _].
  destruct scrollMode; simpl.
  - by eexists _, _.
  - destruct (ongoingTouches s) as [|a [|b [|c ts]]] eqn:E; simpl;
      try (destruct (dragging s); by eexists _, _).
    destruct (pinching s || _) eqn:P; simpl.
    + eexists _, _. split_and!; [done|lia|done].
    + eexists _, _. split_and!; [done|lia|].
      intros Hp. by rewrite Hp in P.
Qed.

Lemma dispatch_no_click scrollMode store now s sx sy :
  Forall (λ m, isClick m = false) (dispatch scrollMode store now s sx sy).2.
Proof.
  unfold dispatch.
  destruct (moved s && _); [|by constructor].
  destruct scrollMode; simpl; [by repeat constructor|].
  destruct (ongoingTouches s) as [|a [|b [|c ts]]]; simpl;
    try (destruct (dragging s); by repeat constructor).
  destruct (pinching s || _); by repeat constructor.
Qed.

Lemma handleTouchMove_no_click scrollMode store e s :
  Forall (λ m, isClick m = false) (handleTouchMove scrollMode store e s).2.
Proof. apply dispatch_no_click. Qed.

(** The fields of the state after [handleTouchMove]. *)
Lemma handleTouchMove_frame scrollMode store e s :
  let s' := (handleTouchMove scrollMode store e s).1 in
  ongoingTouches s' = acc_touches (moveBatch e s)
  ∧ moved s' = acc_moved (moveBatch e s)
  ∧ startTimeStamp s' = startTimeStamp s
  ∧ lastEndTimeStamp s' = lastEndTimeStamp s
  ∧ releasedCount s' = releasedCount s
  ∧ dragging s' = dragging s
  ∧ draggingTimeout s' = draggingTimeout s
  ∧ isTracking s' = isTracking s
  ∧ (length (ongoingTouches s) ≠ 2 →
     lastPinchDist s' = lastPinchDist s ∧ pinching s' = pinching s)
  ∧ (pinching s = true → pinching s' = true).
Proof.
  unfold handleTouchMove. simpl.
  destruct (dispatch_frame scrollMode store (ev_timeStamp e)
              (afterMoveBatch e s) (sumX (moveBatch e s))
              (sumY (moveBatch e s))) as (dist & p & -> & H2 & Hp).
  simpl in *. rewrite length_moveBatch in H2.
  split_and!; try done; intros H; by destruct (H2 H).
Qed.

(** *** The invariant of the reachable states *)

Lemma Inv_initial : Inv initial.
Proof.
  constructor; simpl.
  - constructor.
  - done.
  - by intros [? [=]].
  - done.
  - lia.
Qed.

Lemma Inv_handleTouchStart e s :
  Inv s → changedTouches e ≠ [] → Inv (handleTouchStart e s).1.
Proof.
  intros [Hnd Hidle Htimer Hpinch Hrel] Hne. unfold handleTouchStart.
  pose proof (NoDup_foldl_startTouch (ev_timeStamp e) (changedTouches e)
                _ Hnd) as Hnd'.
  pose proof (length_foldl_startTouch_ge (ev_timeStamp e) (changedTouches e)
                (ongoingTouches s)) as Hlen.
  pose proof (foldl_startTouch_nonempty (ev_timeStamp e) _
                (ongoingTouches s) Hne) as Hts.
  destruct (foldl _ _ _) as [|a [|b [|c ts]]] eqn:Ets; [done|..];
    destruct (draggingTimeout s) as [d|]; simpl in *;
    (constructor; simpl;
     [ done
     | by intros [=]
     | by intros [? [=]]
     | try lia; intros _; apply Hpinch; lia
     | intros Hr; case_bool_decide as Hf; [|by apply Hrel];
       apply nil_length_inv in Hf; destruct (Hidle Hf); lia ]).
Qed.

Lemma Inv_handleTouchMove scrollMode store e s :
  Inv s → Inv (handleTouchMove scrollMode store e s).1.
Proof.
  intros [Hnd Hidle Htimer Hpinch Hrel].
  destruct (handleTouchMove_frame scrollMode store e s)
    as (Hts & Hm & _ & _ & Hrc & Hd & Ht & _ & Hp & _).
  pose proof (length_moveBatch e s) as Hlen.
  constructor.
  - by rewrite Hts, ids_moveBatch.
  - rewrite Hts, Hrc, Hd. intros H. apply Hidle, nil_length_inv.
    by rewrite <- Hlen, H.
  - rewrite Hts, Ht. intros H. apply nil_length_inv.
    by rewrite Hlen, (Htimer H).
  - rewrite Hts, Hlen. intros H.
    destruct Hp as [-> ->]; [lia|]. by apply Hpinch.
  - rewrite Hrc, Hm. intros H. by apply moved_moveBatch, Hrel.
Qed.

Lemma Inv_handleTouchEnd e s : Inv s → Inv (handleTouchEnd e s).1.
Proof.
  intros [Hnd Hidle Htimer Hpinch Hrel]. unfold handleTouchEnd.
  pose proof (foldl_endTouch_conserve (changedTouches e)
                (ongoingTouches s, releasedCount s)) as Hc.
  pose proof (foldl_endTouch_sublist (changedTouches e)
                (ongoingTouches s, releasedCount s)) as Hsub.
  destruct (foldl endTouch _ _) as [ts rel]. simpl in Hc, Hsub.
  assert (Hnd' : NoDup (ids ts)) by by eapply sublist_NoDup.
  destruct (bool_decide (length ts < 2)) eqn:B2;
    destruct (bool_decide (length ts = 0) && bool_decide (1 ≤ rel)) eqn:Bf;
    simpl.
  all: try (destruct (negb _ && JS.lt _ _); [destruct (tapButton rel) as [[]|]|]);
    simpl.
  all: constructor; simpl; try done.
  all: try (apply andb_true_iff in Bf as [Hz%bool_decide_eq_true _]).
  all: try (intros; by apply nil_length_inv).
  all: try (apply bool_decide_eq_false in B2).
  all: try lia.
  all: try (intros Hr; by rewrite bool_decide_eq_true_2).
  - intros ->. simpl in *.
    apply bool_decide_eq_false in Bf.
    assert (rel = 0) as -> by lia.
    assert (ongoingTouches s = []) as Ho by (apply nil_length_inv; lia).
    by destruct (Hidle Ho).
  - intros Ht. destruct (Hidle (Htimer Ht)) as [? ?].
    rewrite (Htimer Ht) in Hc. simpl in Hc. apply nil_length_inv. lia.
  - intros ->. simpl in B2. lia.
  - intros Ht. destruct (Hidle (Htimer Ht)) as [? ?].
    rewrite (Htimer Ht) in Hc. simpl in Hc. apply nil_length_inv. lia.
Qed.

Lemma Inv_step ev s : Inv s → delivered ev → Inv (step ev s).1.
Proof.
  intros HI Hd. destruct ev as [e|scrollMode store e|e|]; simpl.
  - by apply Inv_handleTouchStart.
  - by apply Inv_handleTouchMove.
  - by apply Inv_handleTouchEnd.
  - destruct (draggingTimeout s) eqn:E; simpl; [|done].
    destruct HI as [Hnd Hidle Htimer Hpinch Hrel].
    constructor; simpl; try done.
Qed.

Lemma reachable_Inv s : reachable s → Inv s.
Proof.
  induction 1 as [|ev s _ IH Hd]; [apply Inv_initial | by apply Inv_step].
Qed.

(** *** The client settings *)

(** C8 (amended): [getClientSettings] returns sensitivity 1.0 and invert
    false when nothing is stored (or there is no [localStorage]); for a
    stored sensitivity it returns the number the stored string converts
    to, whatever its sign, unless that is NaN, in which case it returns
    1.0, so the result is never NaN; and invert is true exactly when the
    stored invert value is the string 'true'. *)
Theorem getClientSettings_reads_storage :
  getClientSettings None = {| sensitivity := 1%float; invert := false |}
  ∧ getClientSettings (Some ∅) = {| sensitivity := 1%float; invert := false |}
  ∧ ∀ store : gmap string string,
      let settings := getClientSettings (Some store) in
      (store !! SENSITIVITY = None → sensitivity settings = 1%float)
      ∧ (∀ v, store !! SENSITIVITY = Some v →
           sensitivity settings
           = if JS.isNaN (Number v) then 1%float else Number v)
      ∧ JS.isNaN (sensitivity settings) = false
      ∧ (invert settings = true ↔ store !! INVERT = Some "true"%string).
Proof.
  split_and!; [done..|]. intros store. simpl. split_and!.
  - by intros ->.
  - intros v ->. by destruct (JS.isNaN (Number v)).
  - destruct (store !! SENSITIVITY) as [v|]; [|done].
    by destruct (JS.isNaN (Number v)) eqn:E.
  - apply bool_decide_eq_true.
Qed.

(** *** The dispatch of [handleTouchMove] *)

(** C4 (amended): an [onTouchMove] call at which [moved] is set (once the
    batch is processed) and the debounce time has passed dispatches at most
    one action; it dispatches exactly one when the scroll mode is on, or
    exactly two touches are active, or exactly one touch is active, or a
    drag is on, and none in every other case. *)
Theorem move_dispatches_at_most_one scrollMode store e s :
  acc_moved (moveBatch e s) = true →
  JS.ge (ev_timeStamp e - lastEndTimeStamp s)%float TOUCH_TIMEOUT = true →
  let out := (handleTouchMove scrollMode store e s).2 in
  length out ≤ 1
  ∧ (length out = 1 ↔
     scrollMode = true ∨ length (ongoingTouches s) = 2
     ∨ length (ongoingTouches s) = 1 ∨ dragging s = true).
Proof.
  intros Hm Hd. pose proof (length_moveBatch e s) as Hlen. revert Hlen.
  unfold handleTouchMove, dispatch,
    afterMoveBatch. simpl.
  rewrite Hm, Hd. simpl.
  destruct scrollMode; simpl; [intros _; split; [lia | naive_solver]|].
  destruct (acc_touches (moveBatch e s)) as [|a [|b [|c ts]]];
    simpl; intros <-.
  - destruct (dragging s); simpl; (split; [lia|]);
      (split; [by auto | intros [?|[?|[?|?]]]; done || lia]).
  - split; [lia | naive_solver].
  - destruct (pinching s || _); simpl; (split; [lia | naive_solver]).
  - destruct (dragging s); simpl; (split; [lia|]);
      (split; [by auto | intros [?|[?|[?|?]]]; done || lia]).
Qed.

(** C6: a dispatched move carries the sums of the batch times the
    sensitivity read from the settings at this call, a dispatched scroll
    carries them times that sensitivity times the sign of the invert
    setting read at this call; and the settings are not kept: the state
    after a call, and so after any sequence of events, is the same
    whatever the storage held, so that a change of the settings shows in
    the dispatches after it and in none before. *)
Theorem dispatch_scales_with_sensitivity_at_dispatch scrollMode store e s :
  let acc := moveBatch e s in
  let settings := getClientSettings store in
  let sign := if invert settings then 1%float else (-1)%float in
  Forall (λ m,
     match m with
     | Move dx dy =>
         dx = (sumX acc * sensitivity settings)%float
         ∧ dy = (sumY acc * sensitivity settings)%float
     | Scroll dx dy =>
         dx = (sumX acc * sensitivity settings * sign)%float
         ∧ dy = (sumY acc * sensitivity settings * sign)%float
     | _ => True
     end) (handleTouchMove scrollMode store e s).2
  ∧ (∀ store',
       (handleTouchMove scrollMode store' e s).1
       = (handleTouchMove scrollMode store e s).1)
  ∧ (∀ store' evs s0, (run (withStorage store' <$> evs) s0).1 = (run evs s0).1).
Proof.
  split_and!.
  - unfold handleTouchMove, dispatch,
    afterMoveBatch. simpl.
    destruct (acc_moved _ && _); [|by constructor].
    destruct scrollMode; simpl; [by repeat constructor|].
    destruct (acc_touches (moveBatch e s)) as [|a [|b [|c ts]]]; simpl;
      try (destruct (dragging s); by repeat constructor).
    destruct (pinching s || _); by repeat constructor.
  - intros store'.
    unfold handleTouchMove, dispatch,
    afterMoveBatch. simpl.
    destruct (acc_moved _ && _); [|done].
    destruct scrollMode; simpl; [done|].
    destruct (acc_touches (moveBatch e s)) as [|a [|b [|c ts]]]; simpl;
      try (by destruct (dragging s)).
    by destruct (pinching s || _).
  - intros store' evs. induction evs as [|ev evs IH]; intros s0; [done|].
    rewrite fmap_cons, !run_cons. simpl.
    assert (Hstep : (step (withStorage store' ev) s0).1 = (step ev s0).1).
    { destruct ev as [e0|sm st e0|e0|]; try done. simpl.
      unfold handleTouchMove, dispatch,
    afterMoveBatch. simpl.
      destruct (acc_moved _ && _); [|done].
      destruct sm; simpl; [done|].
      destruct (acc_touches _) as [|a [|b [|c ts]]]; simpl;
        try (by destruct (dragging s0)).
      by destruct (pinching s0 || _). }
    rewrite Hstep. apply IH.
Qed.

(** C7 (amended): when no contact of an event is tracked, no contact is
    processed.  A touch-end then sends nothing and changes nothing but
    [lastEndTimeStamp], which it sets to the time of the event.  A
    touch-move leaves the touches and [moved] as they are and adds nothing
    to the sums, but its dispatch step runs all the same on sums of zero.
    It sends at most one action, and none exactly when [moved] is unset,
    or the debounce time has not passed, or the scroll mode is off, no
    drag is on and the active touches are neither one nor two.  It leaves
    the state as it is when [moved] is unset, or the debounce time has not
    passed, or the scroll mode is on, or the active touches are not two;
    in the case left, the two-touch branch, nothing but the pinch
    distance and the pinching flag can change. *)
Theorem untracked_contacts_are_skipped scrollMode store e s :
  reachable s →
  (∀ id, id ∈ touch_ids (changedTouches e) → id ∉ ids (ongoingTouches s)) →
  handleTouchEnd e s = (setLastEndTimeStamp s (ev_timeStamp e), [])
  ∧ moveBatch e s
    = {| acc_touches := ongoingTouches s; acc_moved := moved s;
         sumX := 0%float; sumY := 0%float |}
  ∧ handleTouchMove scrollMode store e s
    = dispatch scrollMode store (ev_timeStamp e) s 0%float 0%float
  ∧ (moved s
     && JS.ge (ev_timeStamp e - lastEndTimeStamp s)%float TOUCH_TIMEOUT
     = false →
     handleTouchMove scrollMode store e s = (s, []))
  ∧ length (handleTouchMove scrollMode store e s).2 ≤ 1
  ∧ ((handleTouchMove scrollMode store e s).2 = [] ↔
     moved s
     && JS.ge (ev_timeStamp e - lastEndTimeStamp s)%float TOUCH_TIMEOUT
     = false
     ∨ (scrollMode = false ∧ dragging s = false
        ∧ length (ongoingTouches s) ≠ 1 ∧ length (ongoingTouches s) ≠ 2))
  ∧ (moved s
     && JS.ge (ev_timeStamp e - lastEndTimeStamp s)%float TOUCH_TIMEOUT
     = false
     ∨ scrollMode = true ∨ length (ongoingTouches s) ≠ 2 →
     (handleTouchMove scrollMode store e s).1 = s)
  ∧ (∃ dist p,
       (handleTouchMove scrollMode store e s).1 = setPinch s dist p).
Proof.
  intros [Hnd Hidle Htimer Hpinch Hrel]%reachable_Inv Hun.
  assert (Hmove : handleTouchMove scrollMode store e s
                  = dispatch scrollMode store (ev_timeStamp e) s 0%float 0%float).
  { unfold handleTouchMove, afterMoveBatch.
    rewrite (moveBatch_unknown e s Hun). simpl. by rewrite State_eta. }
  assert (Hsame : s = setPinch s (lastPinchDist s) (pinching s))
    by (by destruct s).
  split_and!.
  - unfold handleTouchEnd.
    rewrite (foldl_endTouch_unknown _ _ _ Hun).
    assert (Hfin : bool_decide (length (ongoingTouches s) = 0)
                   && bool_decide (1 ≤ releasedCount s) = false).
    { apply andb_false_iff.
      destruct (ongoingTouches s) as [|t ts] eqn:E.
      - right. destruct Hidle as [-> _]; [done|]. by apply bool_decide_eq_false_2; lia.
      - left. by apply bool_decide_eq_false_2. }
    rewrite Hfin.
    assert (Hmv : (if bool_decide (length TOUCH_MOVE_THRESHOLD < releasedCount s)
                   then true else moved s) = moved s).
    { destruct (bool_decide_reflect
                  (length TOUCH_MOVE_THRESHOLD < releasedCount s));
        [symmetry; by apply Hrel | done]. }
    rewrite Hmv.
    destruct (bool_decide_reflect (length (ongoingTouches s) < 2)) as [Hl|Hl];
      [|done].
    destruct (Hpinch Hl) as [Hp1 Hp2]. unfold setLastEndTimeStamp.
    by rewrite Hp1, Hp2.
  - by apply moveBatch_unknown.
  - done.
  - intros Hq. rewrite Hmove. unfold dispatch. by rewrite Hq.
  - rewrite Hmove. unfold dispatch.
    destruct (moved s && _); simpl; [|lia].
    destruct scrollMode; simpl; [lia|].
    destruct (ongoingTouches s) as [|a [|b [|c ts]]]; simpl;
      try (destruct (dragging s); simpl; lia).
    destruct (pinching s || _); simpl; lia.
  - rewrite Hmove. unfold dispatch.
    destruct (moved s && _); simpl; [|by split; [left|]].
    destruct scrollMode; simpl; [by split; [|intros [?|[? _]]]|].
    destruct (ongoingTouches s) as [|a [|b [|c ts]]]; simpl.
    + destruct (dragging s); simpl;
        (split; [try done; by right | intros [?|(_ & ? & _)]; done]).
    + split; [done | intros [?|(_ & _ & ? & _)]; done].
    + destruct (pinching s || _); simpl;
        (split; [done | intros [?|(_ & _ & _ & ?)]; done]).
    + destruct (dragging s); simpl;
        (split; [try done; by right | intros [?|(_ & ? & _)]; done]).
  - intros Hcase. rewrite Hmove. unfold dispatch.
    destruct (moved s && _); simpl; [|done].
    destruct Hcase as [?|Hcase]; [done|].
    destruct scrollMode; simpl; [done|].
    destruct Hcase as [?|Hlen]; [done|].
    destruct (ongoingTouches s) as [|a [|b [|c ts]]]; simpl in *;
      by destruct (dragging s).
  - rewrite Hmove. unfold dispatch.
    destruct (moved s && _); simpl; [|by eauto].
    destruct scrollMode; simpl; [by eauto|].
    destruct (ongoingTouches s) as [|a [|b [|c ts]]]; simpl;
      try (destruct (dragging s); simpl; by eauto).
    destruct (pinching s || _); simpl; by eauto.
Qed.

(** *** Taps *)

(** The fields of the state after [handleTouchStart]. *)
Lemma handleTouchStart_frame e s :
  let s' := (handleTouchStart e s).1 in
  ongoingTouches s'
  = foldl (startTouch (ev_timeStamp e)) (ongoingTouches s) (changedTouches e)
  ∧ moved s'
    = (if bool_decide (length (ongoingTouches s) = 0) then false else moved s)
  ∧ startTimeStamp s'
    = (if bool_decide (length (ongoingTouches s) = 0) then ev_timeStamp e
       else startTimeStamp s)
  ∧ releasedCount s' = releasedCount s
  ∧ dragging s'
    = match draggingTimeout s with Some _ => true | None => dragging s end
  ∧ draggingTimeout s' = None
  ∧ (handleTouchStart e s).2 = [].
Proof.
  unfold handleTouchStart.
  destruct (foldl _ _ _) as [|a [|b [|c ts]]];
    by destruct (draggingTimeout s).
Qed.

Lemma moveThreshold_one thr :
  moveThreshold 1 = Some thr → 1 ≤ length TOUCH_MOVE_THRESHOLD.
Proof.
  unfold moveThreshold.
  destruct TOUCH_MOVE_THRESHOLD; simpl; [done | lia].
Qed.

Lemma tapping_moveTouch now start origin thr tr acc c :
  moveThreshold 1 = Some thr →
  acc_touches acc = [tr] → acc_moved acc = false →
  identifier tr = identifier origin →
  pageXStart tr = pageXStart origin → pageYStart tr = pageYStart origin →
  JS.lt (now - start)%float TOUCH_TIMEOUT = true →
  withinTap origin thr c = true →
  ∃ tr', acc_touches (moveTouch now start acc c) = [tr']
         ∧ acc_moved (moveTouch now start acc c) = false
         ∧ identifier tr' = identifier origin
         ∧ pageXStart tr' = pageXStart origin
         ∧ pageYStart tr' = pageYStart origin.
Proof.
  intros Hthr Hts Hm Hid Hx Hy Hnow Hc.
  unfold moveTouch, findTouch. rewrite Hts. simpl.
  destruct (decide (identifier tr = touch_identifier c)) as [E|E]; simpl.
  - rewrite Hm, Hthr. simpl.
    unfold withinTap in Hc. rewrite decide_True in Hc by congruence.
    assert (travel c tr = travel c origin) as ->
      by (unfold travel; by rewrite Hx, Hy).
    rewrite (lt_not_gt _ _ Hc), (lt_not_ge _ _ Hnow). simpl.
    destruct (JS.gt _ _); simpl; eexists; split_and!; done.
  - exists tr. by rewrite Hts, Hm.
Qed.

Lemma tapping_foldl_moveTouch now start origin thr cs :
  moveThreshold 1 = Some thr →
  JS.lt (now - start)%float TOUCH_TIMEOUT = true →
  forallb (withinTap origin thr) cs = true →
  ∀ tr acc,
    acc_touches acc = [tr] → acc_moved acc = false →
    identifier tr = identifier origin →
    pageXStart tr = pageXStart origin → pageYStart tr = pageYStart origin →
    ∃ tr', acc_touches (foldl (moveTouch now start) acc cs) = [tr']
           ∧ acc_moved (foldl (moveTouch now start) acc cs) = false
           ∧ identifier tr' = identifier origin
           ∧ pageXStart tr' = pageXStart origin
           ∧ pageYStart tr' = pageYStart origin.
Proof.
  intros Hthr Hnow. induction cs as [|c cs IH]; intros Hcs tr acc Hts Hm Hid Hx Hy.
  - by exists tr.
  - simpl in Hcs. apply andb_true_iff in Hcs as [Hc Hcs]. simpl.
    destruct (tapping_moveTouch now start origin thr tr acc c)
      as (tr1 & ? & ? & ? & ? & ?); try done.
    by apply (IH Hcs tr1).
Qed.

(** A move of a tap sends nothing and leaves the tap in progress. *)
Lemma tapping_step start origin thr ev s :
  moveThreshold 1 = Some thr →
  tapping start origin s → tapMove start origin thr ev = true →
  tapping start origin (step ev s).1 ∧ (step ev s).2 = []
  ∧ releasedCount (step ev s).1 = releasedCount s
  ∧ dragging (step ev s).1 = dragging s
  ∧ draggingTimeout (step ev s).1 = draggingTimeout s.
Proof.
  intros Hthr [(tr & Hts & Hid & Hx & Hy) [Hm Hst]] Hev.
  destruct ev as [|scrollMode store e| |]; try done. simpl in *.
  apply andb_true_iff in Hev as [Hnow Hcs].
  destruct (tapping_foldl_moveTouch (ev_timeStamp e) start origin thr
              (changedTouches e) Hthr Hnow Hcs tr
              {| acc_touches := ongoingTouches s; acc_moved := moved s;
                 sumX := 0%float; sumY := 0%float |})
    as (tr' & Hts' & Hm' & Hid' & Hx' & Hy'); try done.
  rewrite <- Hst in Hts', Hm'.
  fold (moveBatch e s) in Hts', Hm'.
  destruct (handleTouchMove_frame scrollMode store e s)
    as (Ets & Em & Es & _ & Erc & Ed & Et & _).
  split_and!; try done.
  - split; [exists tr'; by rewrite Ets | by rewrite Em, Es].
  - unfold handleTouchMove, dispatch. simpl.
    by rewrite Hm'.
Qed.

Lemma tapping_run start origin thr evs s :
  moveThreshold 1 = Some thr →
  tapping start origin s → forallb (tapMove start origin thr) evs = true →
  tapping start origin (run evs s).1 ∧ (run evs s).2 = []
  ∧ releasedCount (run evs s).1 = releasedCount s
  ∧ dragging (run evs s).1 = dragging s
  ∧ draggingTimeout (run evs s).1 = draggingTimeout s.
Proof.
  intros Hthr. revert s. induction evs as [|ev evs IH]; intros s Ht Hevs.
  - done.
  - simpl in Hevs. apply andb_true_iff in Hevs as [Hev Hevs].
    destruct (tapping_step start origin thr ev s Hthr Ht Hev)
      as (Ht1 & Ho1 & Hr1 & Hd1 & Hti1).
    destruct (IH _ Ht1 Hevs) as (Ht2 & Ho2 & Hr2 & Hd2 & Hti2).
    rewrite run_cons. simpl. rewrite Ho1, Ho2.
    split_and!; [done|done|congruence..].
Qed.

(** The end of a tap: the left button is pressed, after the release of a
    drag if one was on, and the drag-release timer is armed. *)
Lemma tapping_handleTouchEnd start origin thr e s :
  moveThreshold 1 = Some thr →
  tapping start origin s → releasedCount s = 0 →
  identifier origin ∈ touch_ids (changedTouches e) →
  JS.lt (ev_timeStamp e - start)%float TOUCH_TIMEOUT = true →
  (handleTouchEnd e s).2
  = (if dragging s then [Click Left false] else []) ++ [Click Left true]
  ∧ tapped (handleTouchEnd e s).1.
Proof.
  intros Hthr%moveThreshold_one [(tr & Hts & Hid & _) [Hm Hst]] Hrc Hin Hnow.
  unfold handleTouchEnd. rewrite Hts, Hrc.
  rewrite (foldl_endTouch_all _ [tr] 0).
  - simpl. rewrite (bool_decide_eq_false_2 (_ < 1)) by lia.
    rewrite Hm, Hst, Hnow. simpl. by destruct (dragging s).
  - simpl. apply NoDup_singleton.
  - simpl. intros id ->%list_elem_of_singleton. by rewrite Hid.
Qed.

(** Between a tap and the next touch-start, moves and ends send nothing
    and leave the timer armed. *)
Lemma tapped_step ev s :
  tapped s → isMoveOrEnd ev = true →
  tapped (step ev s).1 ∧ (step ev s).2 = [].
Proof.
  intros Htapped Hev. pose proof Htapped as (Hts & Hm & Hrc & Hd & Ht).
  destruct ev as [|scrollMode store e|e|]; try done; simpl.
  - assert (Hb : moveBatch e s
                 = {| acc_touches := ongoingTouches s; acc_moved := moved s;
                      sumX := 0%float; sumY := 0%float |}).
    { apply moveBatch_unknown. intros id _. rewrite Hts. apply not_elem_of_nil. }
    unfold handleTouchMove, dispatch,
      afterMoveBatch.
    rewrite Hb. simpl. rewrite State_eta, Hm. done.
  - unfold handleTouchEnd. rewrite Hts, Hrc, foldl_endTouch_nil.
    simpl. done.
Qed.

Lemma tapped_run evs s :
  tapped s → forallb isMoveOrEnd evs = true →
  tapped (run evs s).1 ∧ (run evs s).2 = [].
Proof.
  revert s. induction evs as [|ev evs IH]; intros s Ht Hevs; [done|].
  simpl in Hevs. apply andb_true_iff in Hevs as [Hev Hevs].
  destruct (tapped_step ev s Ht Hev) as [Ht1 Ho1].
  destruct (IH _ Ht1 Hevs) as [Ht2 Ho2].
  rewrite run_cons. simpl. by rewrite Ho1, Ho2.
Qed.

(** C1: a session of one touch that ends within the timeout, every move of
    it being within the timeout and strictly within the 1-touch threshold
    of where the touch started, sends nothing before the touch-end; the
    touch-end sends exactly one click with button left and press true
    (after the release of a drag, when the session itself began during the
    release delay of an earlier tap) and arms the timer with the timeout
    as delay; and when the timer fires with no touch-start in between,
    whatever moves or ends come first, exactly the click with button left
    and press false is sent and the timer is cleared. *)
Theorem single_tap_clicks_left s0 e0 c0 thr moves e1 :
  reachable s0 → ongoingTouches s0 = [] →
  changedTouches e0 = [c0] →
  moveThreshold 1 = Some thr →
  forallb (tapMove (ev_timeStamp e0) (track (ev_timeStamp e0) c0) thr) moves
  = true →
  touch_identifier c0 ∈ touch_ids (changedTouches e1) →
  JS.lt (ev_timeStamp e1 - ev_timeStamp e0)%float TOUCH_TIMEOUT = true →
  let before := run (TouchStart e0 :: moves) s0 in
  let ended := handleTouchEnd e1 before.1 in
  before.2 = []
  ∧ ended.2
    = match draggingTimeout s0 with
      | Some _ => [Click Left false]
      | None => []
      end ++ [Click Left true]
  ∧ length (List.filter isLeftPress ended.2) = 1
  ∧ draggingTimeout ended.1 = Some TOUCH_TIMEOUT
  ∧ ∀ evs, forallb isMoveOrEnd evs = true →
      let fired := run (evs ++ [DragTimeout]) ended.1 in
      fired.2 = [Click Left false] ∧ draggingTimeout fired.1 = None.
Proof.
  intros [_ Hidle _ _ _]%reachable_Inv Hts0 He0 Hthr Hmoves Hin Hnow.
  destruct (Hidle Hts0) as [Hrc0 Hd0].
  destruct (handleTouchStart_frame e0 s0)
    as (Ets & Em & Est & Erc & Ed & Et & Eo).
  rewrite Hts0, He0 in Ets. simpl in Ets, Em, Est.
  rewrite Hts0 in Em, Est. simpl in Em, Est.
  assert (Htap : tapping (ev_timeStamp e0) (track (ev_timeStamp e0) c0)
                   (handleTouchStart e0 s0).1).
  { split; [|done]. eexists. split; [exact Ets|done]. }
  destruct (tapping_run _ _ thr moves _ Hthr Htap Hmoves)
    as (Htap' & Ho & Hrc & Hd & Hti).
  intros before ended. subst before ended. rewrite run_cons. simpl.
  rewrite Eo, Ho. simpl.
  destruct (tapping_handleTouchEnd (ev_timeStamp e0)
              (track (ev_timeStamp e0) c0) thr e1
              (run moves (handleTouchStart e0 s0).1).1)
    as [Hout Htd]; try done; [congruence|].
  assert (Hdrag : dragging (run moves (handleTouchStart e0 s0).1).1
                  = match draggingTimeout s0 with
                    | Some _ => true | None => false end).
  { rewrite Hd, Ed, Hd0. by destruct (draggingTimeout s0). }
  rewrite Hdrag in Hout.
  split_and!.
  - done.
  - rewrite Hout. by destruct (draggingTimeout s0).
  - rewrite Hout. by destruct (draggingTimeout s0).
  - by destruct Htd as (_ & _ & _ & _ & ->).
  - intros evs Hevs. rewrite run_app.
    destruct (tapped_run evs _ Htd Hevs) as [(_ & _ & _ & _ & Ht') Ho'].
    simpl. rewrite Ho', Ht'. done.
Qed.

(** *** Drags *)

Lemma handleTouchEnd_touches e s :
  ongoingTouches (handleTouchEnd e s).1
  = (foldl endTouch (ongoingTouches s, releasedCount s) (changedTouches e)).1.
Proof.
  unfold handleTouchEnd.
  destruct (foldl endTouch _ _) as [ts rel].
  destruct (bool_decide (length ts < 2));
    destruct (bool_decide (length ts = 0) && bool_decide (1 ≤ rel)); simpl;
    try done;
    destruct (negb _ && JS.lt _ _); try done;
    by destruct (tapButton rel) as [[]|].
Qed.

(** A touch-end that leaves a touch active sends nothing and keeps the
    drag state and the timer; it keeps the pinch state too when it leaves
    two touches or more. *)
Lemma handleTouchEnd_not_final e s :
  0 < length (ongoingTouches (handleTouchEnd e s).1) →
  (handleTouchEnd e s).2 = []
  ∧ dragging (handleTouchEnd e s).1 = dragging s
  ∧ draggingTimeout (handleTouchEnd e s).1 = draggingTimeout s
  ∧ (2 ≤ length (ongoingTouches (handleTouchEnd e s).1) →
     pinching (handleTouchEnd e s).1 = pinching s).
Proof.
  rewrite handleTouchEnd_touches. unfold handleTouchEnd.
  destruct (foldl endTouch _ _) as [ts rel]. simpl. intros Hlen.
  rewrite (bool_decide_eq_false_2 (length ts = 0)) by lia. simpl.
  destruct (bool_decide_reflect (length ts < 2)); simpl;
    split_and!; try done; lia.
Qed.

(** A touch-end that brings the touches below two clears the pinch. *)
Lemma handleTouchEnd_clears_pinch e s :
  length (ongoingTouches (handleTouchEnd e s).1) < 2 →
  pinching (handleTouchEnd e s).1 = false
  ∧ lastPinchDist (handleTouchEnd e s).1 = None.
Proof.
  rewrite handleTouchEnd_touches. unfold handleTouchEnd.
  destruct (foldl endTouch _ _) as [ts rel]. simpl. intros Hlen.
  rewrite (bool_decide_eq_true_2 (length ts < 2)) by done.
  destruct (bool_decide (length ts = 0) && bool_decide (1 ≤ rel)); simpl;
    try done.
  destruct (negb _ && JS.lt _ _); try done.
  by destruct (tapButton rel) as [[]|].
Qed.

(** The touch-end that lifts the last touch of a drag releases the left
    button, once and first, and ends the drag. *)
Lemma handleTouchEnd_final_drag e s :
  dragging s = true → 0 < length (ongoingTouches s) →
  ongoingTouches (handleTouchEnd e s).1 = [] →
  head (handleTouchEnd e s).2 = Some (Click Left false)
  ∧ length (List.filter isLeftRelease (handleTouchEnd e s).2) = 1
  ∧ dragging (handleTouchEnd e s).1 = false.
Proof.
  intros Hd Hlen. rewrite handleTouchEnd_touches.
  pose proof (foldl_endTouch_conserve (changedTouches e)
                (ongoingTouches s, releasedCount s)) as Hc.
  unfold handleTouchEnd.
  destruct (foldl endTouch _ _) as [ts rel]. simpl in *. intros ->.
  simpl in *. rewrite (bool_decide_eq_true_2 (1 ≤ rel)) by lia.
  rewrite Hd. simpl.
  destruct (negb _ && JS.lt _ _); [|done].
  by destruct (tapButton rel) as [[]|].
Qed.

Lemma no_click_no_release (out : list Msg) :
  Forall (λ m, isClick m = false) out → Forall (λ m, isRelease m = false) out.
Proof. intros H. eapply Forall_impl; [exact H|]. by intros []. Qed.

Lemma no_click_no_press (out : list Msg) :
  Forall (λ m, isClick m = false) out → Forall (λ m, isPress m = false) out.
Proof. intros H. eapply Forall_impl; [exact H|]. by intros []. Qed.

(** While a touch stays active, a drag stays on and no release is sent. *)
Lemma dragging_step ev s :
  dragging s = true → draggingTimeout s = None →
  0 < length (ongoingTouches (step ev s).1) →
  dragging (step ev s).1 = true ∧ draggingTimeout (step ev s).1 = None
  ∧ Forall (λ m, isRelease m = false) (step ev s).2.
Proof.
  intros Hd Ht Hlen. destruct ev as [e|scrollMode store e|e|]; simpl in *.
  - destruct (handleTouchStart_frame e s) as (_ & _ & _ & _ & Ed & Et & Eo).
    rewrite Ed, Et, Eo, Ht. by split_and!.
  - destruct (handleTouchMove_frame scrollMode store e s)
      as (_ & _ & _ & _ & _ & Ed & Et & _).
    rewrite Ed, Et. split_and!; try done.
    apply no_click_no_release, handleTouchMove_no_click.
  - destruct (handleTouchEnd_not_final e s Hlen) as (-> & -> & -> & _).
    by split_and!.
  - rewrite Ht. by split_and!.
Qed.

Lemma dragging_run evs s :
  dragging s = true → draggingTimeout s = None →
  0 < length (ongoingTouches s) → staysActive evs s = true →
  dragging (run evs s).1 = true ∧ draggingTimeout (run evs s).1 = None
  ∧ 0 < length (ongoingTouches (run evs s).1)
  ∧ Forall (λ m, isRelease m = false) (run evs s).2.
Proof.
  revert s. induction evs as [|ev evs IH]; intros s Hd Ht Hlen Hact.
  - by split_and!.
  - simpl in Hact.
    apply andb_true_iff in Hact as [Hlen1%bool_decide_eq_true Hact].
    destruct (dragging_step ev s Hd Ht Hlen1) as (Hd1 & Ht1 & Ho1).
    destruct (IH _ Hd1 Ht1 Hlen1 Hact) as (Hd2 & Ht2 & Hlen2 & Ho2).
    rewrite run_cons. simpl. split_and!; try done.
    by apply Forall_app.
Qed.

(** C2: a touch-start that arrives while the drag-release timer is pending
    cancels the timer and sets [dragging]; as long as a touch stays active
    after it, whatever events come, [dragging] stays set, the timer stays
    cancelled and no click with press false is sent; the touch-end that
    lifts the last touch sends the click with button left and press false
    exactly once, before anything else, and clears [dragging]. *)
Theorem touch_start_during_release_delay_drags s0 e0 evs e1 :
  is_Some (draggingTimeout s0) → changedTouches e0 ≠ [] →
  staysActive evs (handleTouchStart e0 s0).1 = true →
  let started := handleTouchStart e0 s0 in
  let during := run evs started.1 in
  let ended := handleTouchEnd e1 during.1 in
  ongoingTouches ended.1 = [] →
  (draggingTimeout started.1 = None ∧ dragging started.1 = true
   ∧ started.2 = [])
  ∧ (dragging during.1 = true ∧ draggingTimeout during.1 = None
     ∧ Forall (λ m, isRelease m = false) during.2)
  ∧ (head ended.2 = Some (Click Left false)
     ∧ length (List.filter isLeftRelease ended.2) = 1
     ∧ dragging ended.1 = false).
Proof.
  intros [d Hd] Hne Hact started during ended Hend.
  destruct (handleTouchStart_frame e0 s0) as (Ets & _ & _ & _ & Ed & Et & Eo).
  rewrite Hd in Ed.
  assert (Hlen : 0 < length (ongoingTouches started.1)).
  { subst started. rewrite Ets.
    pose proof (foldl_startTouch_nonempty (ev_timeStamp e0)
                  (changedTouches e0) (ongoingTouches s0) Hne) as Hn.
    destruct (foldl _ _ _); [done | simpl; lia]. }
  destruct (dragging_run evs started.1 Ed Et Hlen Hact)
    as (Hd2 & Ht2 & Hlen2 & Ho2).
  split_and!; try done.
  all: by apply (handleTouchEnd_final_drag e1 during.1).
Qed.

(** *** Pinches *)

Lemma dispatch_pinching store now s sx sy :
  pinching s = true →
  Forall (λ m, isScroll m = false) (dispatch false store now s sx sy).2
  ∧ (length (ongoingTouches s) = 2 →
     Forall (λ m, isZoom m = true) (dispatch false store now s sx sy).2).
Proof.
  intros Hp. unfold dispatch.
  destruct (moved s && _); simpl; [|by split; [constructor|intros; constructor]].
  destruct (ongoingTouches s) as [|a [|b [|c ts]]]; simpl;
    try (destruct (dragging s); simpl;
         (split; [repeat constructor | intros Hl; lia])).
  rewrite Hp. simpl. split; [|intros _]; by repeat constructor.
Qed.

Lemma handleTouchMove_pinching store e s :
  pinching s = true →
  pinching (handleTouchMove false store e s).1 = true
  ∧ Forall (λ m, isScroll m = false) (handleTouchMove false store e s).2
  ∧ (length (ongoingTouches s) = 2 →
     Forall (λ m, isZoom m = true) (handleTouchMove false store e s).2).
Proof.
  intros Hp.
  destruct (handleTouchMove_frame false store e s)
    as (_ & _ & _ & _ & _ & _ & _ & _ & _ & Hp').
  split; [by apply Hp'|].
  unfold handleTouchMove. rewrite <- (length_moveBatch e s).
  by apply dispatch_pinching.
Qed.

Lemma pinching_step ev s :
  pinching s = true → 2 ≤ length (ongoingTouches s) →
  twoOrMore [ev] s = true →
  pinching (step ev s).1 = true
  ∧ 2 ≤ length (ongoingTouches (step ev s).1)
  ∧ Forall (λ m, isScroll m = false) (step ev s).2.
Proof.
  intros Hp Hlen Hev. simpl in Hev. rewrite andb_true_r in Hev.
  apply andb_true_iff in Hev as [Hev Hlen1%bool_decide_eq_true].
  split_and!; [|done|]; destruct ev as [e|scrollMode store e|e|]; simpl in *.
  - unfold bringsNewTouches in Hev.
    destruct (changedTouches e) as [|c cs] eqn:Ecs; [done|].
    simpl in Hev. apply andb_true_iff in Hev as [Hc%bool_decide_eq_true _].
    pose proof (length_foldl_startTouch_new (ev_timeStamp e) c cs _ Hc) as Hn.
    unfold handleTouchStart. rewrite Ecs.
    destruct (foldl _ _ _) as [|a [|b [|c' ts]]]; simpl in Hn; try lia;
      by destruct (draggingTimeout s).
  - apply negb_true_iff in Hev as ->. by apply handleTouchMove_pinching.
  - destruct (handleTouchEnd_not_final e s) as (_ & _ & _ & Hk); [lia|].
    by rewrite Hk.
  - by destruct (draggingTimeout s).
  - by destruct (handleTouchStart_frame e s) as (_ & _ & _ & _ & _ & _ & ->).
  - apply negb_true_iff in Hev as ->. by apply handleTouchMove_pinching.
  - destruct (handleTouchEnd_not_final e s) as (-> & _); [lia|done].
  - destruct (draggingTimeout s); by repeat constructor.
Qed.

Lemma pinching_run evs s :
  pinching s = true → 2 ≤ length (ongoingTouches s) →
  twoOrMore evs s = true →
  pinching (run evs s).1 = true
  ∧ 2 ≤ length (ongoingTouches (run evs s).1)
  ∧ Forall (λ m, isScroll m = false) (run evs s).2.
Proof.
  revert s. induction evs as [|ev evs IH]; intros s Hp Hlen Hevs.
  - by split_and!.
  - assert (Hev : twoOrMore [ev] s = true ∧ twoOrMore evs (step ev s).1 = true).
    { simpl in *. rewrite andb_true_r.
      by apply andb_true_iff in Hevs as [-> ->]. }
    destruct Hev as [Hev Hevs'].
    destruct (pinching_step ev s Hp Hlen Hev) as (Hp1 & Hlen1 & Ho1).
    destruct (IH _ Hp1 Hlen1 Hevs') as (Hp2 & Hlen2 & Ho2).
    rewrite run_cons. simpl. split_and!; try done.
    by apply Forall_app.
Qed.

(** C3 (amended): outside scroll mode, a dispatch with two touches active
    at which the distance between them differs from the pinch baseline by
    more than the pinch threshold is a zoom and sets [pinching].  From
    then on, as long as two touches or more stay active and every
    touch-start brings new contacts only, [pinching] stays set and no
    scroll is sent, and every dispatch with exactly two touches active is
    a zoom; the touch-end that brings the touches below two clears
    [pinching]. *)
Theorem pinch_keeps_zooming s store e a b :
  acc_touches (moveBatch e s) = [a; b] →
  acc_moved (moveBatch e s) = true →
  JS.ge (ev_timeStamp e - lastEndTimeStamp s)%float TOUCH_TIMEOUT = true →
  JS.gt (PrimFloat.abs (pinchDelta (getTouchDistance a b) (lastPinchDist s)))
        PINCH_THRESHOLD = true →
  let recognised := handleTouchMove false store e s in
  recognised.2
  = [Zoom (pinchDelta (getTouchDistance a b) (lastPinchDist s)
           * sensitivity (getClientSettings store))%float]
  ∧ pinching recognised.1 = true
  ∧ ∀ evs, twoOrMore evs recognised.1 = true →
      let later := run evs recognised.1 in
      pinching later.1 = true
      ∧ Forall (λ m, isScroll m = false) later.2
      ∧ (∀ store' e',
           length (ongoingTouches later.1) = 2 →
           Forall (λ m, isZoom m = true)
                  (handleTouchMove false store' e' later.1).2
           ∧ pinching (handleTouchMove false store' e' later.1).1 = true)
      ∧ (∀ e',
           length (ongoingTouches (handleTouchEnd e' later.1).1) < 2 →
           pinching (handleTouchEnd e' later.1).1 = false).
Proof.
  intros Hts Hm Hd Hdelta recognised.
  assert (Hrec : recognised
                 = (setPinch (afterMoveBatch e s)
                             (Some (getTouchDistance a b)) true,
                    [Zoom (pinchDelta (getTouchDistance a b) (lastPinchDist s)
                           * sensitivity (getClientSettings store))%float])).
  { subst recognised.
    unfold handleTouchMove, dispatch. simpl.
    rewrite Hm, Hd, Hts. simpl. rewrite Hdelta.
    by rewrite orb_true_r. }
  rewrite Hrec. split; [done|]. split; [done|].
  intros evs Hevs later.
  simpl in Hevs, later.
  destruct (pinching_run evs
              (setPinch (afterMoveBatch e s) (Some (getTouchDistance a b)) true))
    as (Hp & Hlen & Ho); [done| |done|].
  { simpl. by rewrite Hts. }
  split_and!; try done.
  - intros store' e' Hl.
    destruct (handleTouchMove_pinching store' e' later.1 Hp) as (? & _ & Hz).
    split; [by apply Hz | done].
  - intros e' Hl. by apply handleTouchEnd_clears_pinch.
Qed.

(** *** Four fingers and more *)

(** Moves keep the identifiers tracked, the release count and the drag
    state, and send no click. *)
Lemma moves_frame evs s :
  forallb isMove evs = true →
  ids (ongoingTouches (run evs s).1) = ids (ongoingTouches s)
  ∧ releasedCount (run evs s).1 = releasedCount s
  ∧ dragging (run evs s).1 = dragging s
  ∧ Forall (λ m, isClick m = false) (run evs s).2.
Proof.
  revert s. induction evs as [|ev evs IH]; intros s Hevs.
  - by split_and!.
  - simpl in Hevs. apply andb_true_iff in Hevs as [Hev Hevs].
    destruct ev as [|scrollMode store e| |]; try done.
    rewrite run_cons. simpl.
    destruct (handleTouchMove_frame scrollMode store e s)
      as (Ets & _ & _ & _ & Erc & Ed & _).
    destruct (IH (handleTouchMove scrollMode store e s).1 Hevs)
      as (Hids & Hrc & Hd & Ho).
    split_and!.
    + by rewrite Hids, Ets, ids_moveBatch.
    + congruence.
    + congruence.
    + apply Forall_app. split; [apply handleTouchMove_no_click | done].
Qed.

(** C5 (amended): when four or more fingers touch at once, with a table of
    at most three thresholds, and are all lifted at once, whatever moves
    come in between, the session ends with [moved] set and no click with
    press true is sent.  The touch-end sends nothing at all, unless the
    session began while the drag-release timer of an earlier tap was
    pending: then it sends the one click with button left and press false
    that ends the drag. *)
Theorem many_fingers_never_tap s0 e0 moves e1 :
  reachable s0 → ongoingTouches s0 = [] →
  length TOUCH_MOVE_THRESHOLD ≤ 3 →
  NoDup (touch_ids (changedTouches e0)) →
  4 ≤ length (changedTouches e0) →
  forallb isMove moves = true →
  (∀ id, id ∈ touch_ids (changedTouches e0) →
         id ∈ touch_ids (changedTouches e1)) →
  let before := run (TouchStart e0 :: moves) s0 in
  let ended := handleTouchEnd e1 before.1 in
  ongoingTouches ended.1 = [] ∧ moved ended.1 = true
  ∧ ended.2
    = match draggingTimeout s0 with
      | Some _ => [Click Left false]
      | None => []
      end
  ∧ Forall (λ m, isPress m = false) (before.2 ++ ended.2).
Proof.
  intros [_ Hidle _ _ _]%reachable_Inv Hts0 Htable Hnd Hfour Hmoves Hall.
  destruct (Hidle Hts0) as [Hrc0 Hd0].
  destruct (handleTouchStart_frame e0 s0)
    as (Ets & _ & _ & Erc & Ed & _ & Eo).
  rewrite Hts0 in Ets.
  destruct (moves_frame moves (handleTouchStart e0 s0).1 Hmoves)
    as (Hids & Hrc & Hd & Ho).
  assert (Hids' : ids (ongoingTouches (run moves (handleTouchStart e0 s0).1).1)
                  = touch_ids (changedTouches e0)).
  { rewrite Hids, Ets. rewrite ids_foldl_startTouch_new; [done|done|].
    intros id _. apply not_elem_of_nil. }
  intros before ended.
  assert (Hbefore : before = ((run moves (handleTouchStart e0 s0).1).1,
                              (run moves (handleTouchStart e0 s0).1).2)).
  { subst before. rewrite run_cons. simpl. by rewrite Eo. }
  assert (Hend : ended
                 = ({| ongoingTouches := []; moved := true;
                       startTimeStamp := startTimeStamp before.1;
                       lastEndTimeStamp := ev_timeStamp e1;
                       releasedCount := 0; dragging := false;
                       draggingTimeout := draggingTimeout before.1;
                       lastPinchDist := None; pinching := false;
                       isTracking := false |},
                    match draggingTimeout s0 with
                    | Some _ => [Click Left false]
                    | None => []
                    end)).
  { subst ended. rewrite Hbefore. simpl.
    unfold handleTouchEnd.
    rewrite Hrc, Erc, Hrc0.
    rewrite foldl_endTouch_all; [| by rewrite Hids' | by rewrite Hids'].
    simpl. rewrite <- length_ids, Hids'. unfold touch_ids.
    rewrite length_fmap.
    rewrite (bool_decide_eq_true_2 (_ < _)) by lia.
    rewrite (bool_decide_eq_true_2 (1 ≤ _)) by lia.
    simpl. rewrite Hd, Ed, Hd0.
    destruct (draggingTimeout s0); by rewrite app_nil_r. }
  rewrite Hend. simpl. split_and!; try done.
  apply Forall_app. split.
  - rewrite Hbefore. simpl. by apply no_click_no_press.
  - destruct (draggingTimeout s0); by repeat constructor.
Qed.

End GestureFacts.

(** ** The modifier buffer *)

Section ModifierFacts.

Import Modifier.

Context (toLowerCase : string → string).

Local Abbreviation handleKeyDown := (handleKeyDown toLowerCase).

Lemma dropLast_snoc keys key : dropLast (keys ++ [key]) = keys.
Proof.
  unfold dropLast. rewrite length_app. simpl.
  replace (length keys + 1 - 1) with (length keys) by lia.
  by rewrite take_app_length.
Qed.

(** C9: the modifier toggle goes from Release to Active with an empty
    buffer, from Active to Hold when the buffer is not empty and back to
    Release otherwise, and from Hold to Release with the buffer cleared;
    while the state is not Release, backspace removes the last buffered
    key and escape resets to Release with an empty buffer. *)
Theorem modifier_cycle (p : Page) :
  (modifier p = Release →
   handleModifierState p = {| modifier := Active; buffer := [] |})
  ∧ (modifier p = Active → buffer p ≠ [] →
     handleModifierState p = {| modifier := Hold; buffer := buffer p |})
  ∧ (modifier p = Active → buffer p = [] →
     handleModifierState p = {| modifier := Release; buffer := [] |})
  ∧ (modifier p = Hold →
     handleModifierState p = {| modifier := Release; buffer := [] |})
  ∧ (∀ eKey, modifier p ≠ Release → toLowerCase eKey = "backspace"%string →
     (buffer p = [] →
      handleKeyDown eKey p = (p, [], true))
     ∧ (∀ keys key, buffer p = keys ++ [key] →
        handleKeyDown eKey p
        = ({| modifier := modifier p; buffer := keys |}, [], true)))
  ∧ (∀ eKey, modifier p ≠ Release → toLowerCase eKey = "escape"%string →
     handleKeyDown eKey p
     = ({| modifier := Release; buffer := [] |}, [], true)).
Proof.
  destruct p as [m b]. unfold handleModifierState. simpl. split_and!.
  - by intros ->.
  - intros -> Hb. rewrite bool_decide_eq_true_2; [done|].
    destruct b; [done | simpl; lia].
  - by intros -> ->.
  - by intros ->.
  - intros eKey Hm Hk. unfold Modifier.handleKeyDown. simpl.
    rewrite bool_decide_eq_true_2 by done. rewrite Hk. simpl. split.
    + by intros ->.
    + intros keys key ->. by rewrite dropLast_snoc.
  - intros eKey Hm Hk. unfold Modifier.handleKeyDown. simpl.
    rewrite bool_decide_eq_true_2 by done. by rewrite Hk.
Qed.

Lemma deliver_hold keys p :
  modifier p = Hold →
  deliver keys p = (p, (λ key, Combo (buffer p ++ [key])) <$> keys).
Proof.
  intros Hm. induction keys as [|key keys IH]; [done|].
  simpl. unfold handleModifier. rewrite Hm.
  fold (handleModifier). by rewrite IH.
Qed.

(** C10: in Hold, a delivered key sends exactly one combo, the buffered
    keys followed by the new key, and leaves the modifier state and the
    buffer as they are; so every further key sends another combo with the
    same buffered prefix.  A key whose lower-cased name has a [length]
    of more than 1, in UTF-16 code units as JavaScript counts, and is none
    of backspace, escape and unidentified, reaches the buffer logic this
    way through the key-down handler as well. *)
Theorem hold_sends_combo_and_keeps_buffer (p : Page) :
  modifier p = Hold →
  (∀ key, handleModifier key p = (p, [Combo (buffer p ++ [key])]))
  ∧ (∀ keys,
       deliver keys p = (p, (λ key, Combo (buffer p ++ [key])) <$> keys))
  ∧ (∀ eKey,
       let key := toLowerCase eKey in
       key ≠ "backspace"%string → key ≠ "escape"%string →
       key ≠ "unidentified"%string → 1 < JS.length key →
       handleKeyDown eKey p = (p, [Combo (buffer p ++ [key])], true)).
Proof.
  intros Hm. split_and!.
  - intros key. unfold handleModifier. by rewrite Hm.
  - intros keys. by apply deliver_hold.
  - intros eKey key H1 H2 H3 H4. unfold Modifier.handleKeyDown.
    fold key. rewrite Hm. simpl.
    rewrite (bool_decide_eq_false_2 (key = "backspace"%string)) by done.
    rewrite (bool_decide_eq_false_2 (key = "escape"%string)) by done.
    rewrite (bool_decide_eq_true_2 (key ≠ "unidentified"%string)) by done.
    rewrite (bool_decide_eq_true_2 (1 < JS.length key)) by done.
    simpl. unfold handleModifier. by rewrite Hm.
Qed.

End ModifierFacts.

(** ** The handlers on sample gestures *)

Section Samples.

Import Sample.

Local Notation "'on_sample' thm" :=
  (thm TOUCH_MOVE_THRESHOLD TOUCH_TIMEOUT PINCH_THRESHOLD
       calculateAccelerationMult Number) (at level 10, only parsing).

(** The example of the spec: a touch at (100,100) at time 0, lifted at
    time 50 (after a move of 5 px), clicks the left button, and releases
    it when the timer fires. *)
Lemma single_tap_clicks_left_witness :
  let e0 := at_ 0 [touch 1 100 100] in
  let moves := [TouchMove false None (at_ 20 [touch 1 103 104])] in
  let e1 := at_ 50 [touch 1 103 104] in
  let before := run (TouchStart e0 :: moves) initial in
  let ended := handleTouchEnd e1 before.1 in
  before.2 = [] ∧ ended.2 = [Click Left true]
  ∧ draggingTimeout ended.1 = Some 300%float
  ∧ (run [DragTimeout] ended.1).2 = [Click Left false].
Proof.
  intros e0 moves e1 before ended.
  destruct (on_sample single_tap_clicks_left initial e0 (touch 1 100 100)
              10%float moves e1) as (H1 & H2 & _ & H4 & H5).
  - apply reachable_initial.
  - reflexivity.
  - reflexivity.
  - reflexivity.
  - vm_compute. reflexivity.
  - left.
  - vm_compute. reflexivity.
  - split; [exact H1|]. split; [exact H2|]. split; [exact H4|].
    exact (proj1 (H5 [] eq_refl)).
Defined.

(** A touch that starts 50 ms after a tap, while the timer is pending,
    turns the held click into a drag: the move sends a move and the final
    touch-end releases the button. *)
Lemma touch_start_during_release_delay_drags_witness :
  let s0 := (run [TouchStart (at_ 0 [touch 1 100 100]);
                  TouchEnd (at_ 50 [touch 1 100 100])] initial).1 in
  let e0 := at_ 100 [touch 2 50 50] in
  let evs := [TouchMove false None (at_ 500 [touch 2 80 50])] in
  let e1 := at_ 600 [touch 2 80 50] in
  let started := handleTouchStart e0 s0 in
  let during := run evs started.1 in
  let ended := handleTouchEnd e1 during.1 in
  draggingTimeout s0 = Some 300%float
  ∧ (draggingTimeout started.1 = None ∧ dragging started.1 = true
     ∧ started.2 = [])
  ∧ (dragging during.1 = true ∧ draggingTimeout during.1 = None
     ∧ Forall (λ m, isRelease m = false) during.2)
  ∧ (head ended.2 = Some (Click Left false)
     ∧ length (List.filter isLeftRelease ended.2) = 1
     ∧ dragging ended.1 = false).
Proof.
  intros s0 e0 evs e1 started during ended.
  split; [reflexivity|].
  apply (on_sample touch_start_during_release_delay_drags s0 e0 evs e1).
  - exists 300%float. reflexivity.
  - discriminate.
  - vm_compute. reflexivity.
  - vm_compute. reflexivity.
Defined.

(** The example of the spec: two touches 50 px apart, moved 70 px apart,
    zoom by 20; the next move, 5 px further, is below the threshold and
    is a zoom all the same. *)
Lemma pinch_keeps_zooming_witness :
  let s := (run [TouchStart (at_ 0 [touch 1 0 0; touch 2 30 40])] initial).1 in
  let e := at_ 400 [touch 2 42 56] in
  let e' := at_ 420 [touch 2 45 60] in
  let recognised := handleTouchMove false None e s in
  recognised.2 = [Zoom 20] ∧ pinching recognised.1 = true
  ∧ Forall (λ m, isZoom m = true) (handleTouchMove false None e' recognised.1).2
  ∧ (handleTouchMove false None e' recognised.1).2 = [Zoom 5].
Proof.
  intros s e e' recognised.
  destruct (on_sample pinch_keeps_zooming s None e
              {| identifier := 1; pageX := 0; pageY := 0; pageXStart := 0;
                 pageYStart := 0; timeStamp := 0 |}
              {| identifier := 2; pageX := 42; pageY := 56; pageXStart := 30;
                 pageYStart := 40; timeStamp := 400 |})
    as (H1 & H2 & H3).
  - vm_compute. reflexivity.
  - vm_compute. reflexivity.
  - vm_compute. reflexivity.
  - vm_compute. reflexivity.
  - split; [exact H1|]. split; [exact H2|].
    destruct (H3 [] eq_refl) as (_ & _ & Hz & _).
    split; [exact (proj1 (Hz None e' eq_refl))|].
    vm_compute. reflexivity.
Defined.

(** C3, counterexample: two touches, a pinch recognised by a zoom; then a
    touch-start for the identifier 2, which is tracked already.  Two
    touches are active throughout, yet the touch-start clears [pinching]
    and the next dispatch is a scroll. *)
Lemma touch_start_of_tracked_touch_ends_pinch :
  let s := (run [TouchStart (at_ 0 [touch 1 0 0; touch 2 30 40]);
                 TouchMove false None (at_ 400 [touch 2 42 56])] initial).1 in
  let s' := (handleTouchStart (at_ 410 [touch 2 42 56]) s).1 in
  (pinching s = true ∧ length (ongoingTouches s) = 2)
  ∧ (pinching s' = false ∧ length (ongoingTouches s') = 2)
  ∧ (handleTouchMove false None (at_ 420 [touch 2 45 60]) s').2
    = [Scroll (-3) (-4)].
Proof. vm_compute. done. Qed.

(** One touch that has been down for 400 ms: the move dispatches one
    action. *)
Lemma move_dispatches_at_most_one_witness :
  let s := (run [TouchStart (at_ 0 [touch 1 100 100])] initial).1 in
  let e := at_ 400 [touch 1 130 100] in
  let out := (handleTouchMove false None e s).2 in
  acc_moved (moveBatch e s) = true
  ∧ length out ≤ 1
  ∧ (length out = 1 ↔
     false = true ∨ length (ongoingTouches s) = 2
     ∨ length (ongoingTouches s) = 1 ∨ dragging s = true).
Proof.
  intros s e out. split; [vm_compute; reflexivity|].
  apply (on_sample move_dispatches_at_most_one false None e s).
  - vm_compute. reflexivity.
  - vm_compute. reflexivity.
Defined.

(** C4, counterexample: three touches down for 400 ms, outside scroll mode
    and with no drag on; [moved] is set by the batch and the debounce time
    has passed, yet the move dispatches no action. *)
Lemma three_finger_move_dispatches_nothing :
  let s := (run [TouchStart (at_ 0 [touch 1 0 0; touch 2 30 40;
                                    touch 3 60 80])] initial).1 in
  let e := at_ 400 [touch 1 5 5] in
  acc_moved (moveBatch e s) = true
  ∧ JS.ge (ev_timeStamp e - lastEndTimeStamp s)%float TOUCH_TIMEOUT = true
  ∧ (handleTouchMove false None e s).2 = [].
Proof. vm_compute. done. Qed.

(** Four fingers down at once, moved and lifted at once: no click. *)
Lemma many_fingers_never_tap_witness :
  let e0 := at_ 0 fourTouches in
  let moves := [TouchMove false None (at_ 10 [touch 1 1 1])] in
  let e1 := at_ 50 fourTouches in
  let before := run (TouchStart e0 :: moves) initial in
  let ended := handleTouchEnd e1 before.1 in
  length Sample.TOUCH_MOVE_THRESHOLD ≤ 3
  ∧ ongoingTouches ended.1 = [] ∧ moved ended.1 = true
  ∧ ended.2 = []
  ∧ Forall (λ m, isPress m = false) (before.2 ++ ended.2).
Proof.
  intros e0 moves e1 before ended.
  split; [vm_compute; lia|].
  apply (on_sample many_fingers_never_tap initial e0 moves e1).
  - apply reachable_initial.
  - reflexivity.
  - vm_compute. lia.
  - refine (bool_decide_unpack _ _). vm_compute. exact I.
  - vm_compute. lia.
  - reflexivity.
  - intros id H. exact H.
Defined.

(** C5, counterexample: four fingers that touch at once 50 ms after a
    tap, while its drag-release timer is pending, and are lifted at once:
    the touch-end sends a click, the release of the left button. *)
Lemma four_fingers_after_tap_release_the_drag :
  let s0 := (run [TouchStart (at_ 0 [touch 1 100 100]);
                  TouchEnd (at_ 50 [touch 1 100 100])] initial).1 in
  ongoingTouches s0 = []
  ∧ (run [TouchStart (at_ 100 fourTouches);
          TouchEnd (at_ 150 fourTouches)] s0).2 = [Click Left false].
Proof. vm_compute. done. Qed.

(** A change of the stored sensitivity between two moves of one gesture
    shows in the second move only. *)
Example sensitivity_changed_between_moves :
  (run [TouchStart (at_ 0 [touch 1 100 100]);
        TouchMove false (stored (Some "2"%string) None)
                  (at_ 400 [touch 1 150 100]);
        TouchMove false (stored (Some "0.5"%string) None)
                  (at_ 420 [touch 1 200 100])] initial).2
  = [Move 100 0; Move 25 0].
Proof. vm_compute. reflexivity. Qed.

(** A touch-end and a touch-move for a contact that is not tracked, in a
    session with one touch and no movement yet; and such a touch-move in
    a session of three touches that have moved, after the debounce
    time. *)
Lemma untracked_contacts_are_skipped_witness :
  let s := (step (TouchStart (at_ 0 [touch 1 100 100])) initial).1 in
  let e := at_ 50 [touch 9 0 0] in
  let s3 :=
    (step (TouchMove false None (at_ 400 [touch 1 200 100]))
       (step (TouchStart (at_ 0 [touch 1 100 100; touch 2 150 100;
                                 touch 3 200 100])) initial).1).1 in
  let e3 := at_ 500 [touch 9 0 0] in
  (handleTouchEnd e s = (setLastEndTimeStamp s 50, [])
   ∧ handleTouchMove false None e s = (s, []))
  ∧ (moved s3 = true
     ∧ (handleTouchMove false None e3 s3).2 = []
     ∧ (handleTouchMove false None e3 s3).1 = s3).
Proof.
  intros s e s3 e3. split.
  - destruct (on_sample untracked_contacts_are_skipped false None e s)
      as (H1 & _ & _ & H4 & _).
    + apply (on_sample reachable_step (TouchStart (at_ 0 [touch 1 100 100]))
               initial); [apply reachable_initial | discriminate].
    + intros id ->%list_elem_of_singleton H%list_elem_of_singleton.
      discriminate H.
    + split; [exact H1 | exact (H4 eq_refl)].
  - destruct (on_sample untracked_contacts_are_skipped false None e3 s3)
      as (_ & _ & _ & _ & _ & H6 & H7 & _).
    + apply (on_sample reachable_step
               (TouchMove false None (at_ 400 [touch 1 200 100])));
        [|exact I].
      apply (on_sample reachable_step
               (TouchStart (at_ 0 [touch 1 100 100; touch 2 150 100;
                                   touch 3 200 100])) initial);
        [apply reachable_initial | discriminate].
    + intros id ->%list_elem_of_singleton.
      refine (bool_decide_unpack _ _). vm_compute. exact I.
    + split_and!.
      * reflexivity.
      * apply (proj2 H6). right. split_and!;
          [reflexivity | reflexivity | vm_compute; lia | vm_compute; lia].
      * apply H7. right. right. vm_compute. lia.
Defined.

(** C7, counterexample: one touch is tracked and has moved; a touch-move
    whose only contact is not tracked sends a move all the same, and a
    touch-end whose only contact is not tracked changes the state. *)
Lemma untracked_move_still_dispatches :
  let s := (run [TouchStart (at_ 0 [touch 1 100 100]);
                 TouchMove false None (at_ 400 [touch 1 200 100])]
                initial).1 in
  let e := at_ 500 [touch 9 200 100] in
  Forall (λ id, id ∉ ids (ongoingTouches s)) (touch_ids (changedTouches e))
  ∧ (handleTouchMove false None e s).2 = [Move 0 0]
  ∧ lastEndTimeStamp s = 0%float
  ∧ lastEndTimeStamp (handleTouchEnd e s).1 = 500%float.
Proof.
  split; [|vm_compute; done].
  refine (bool_decide_unpack _ _). vm_compute. exact I.
Qed.

(** A stored sensitivity of 2.5 and a stored invert of 'true'. *)
Lemma getClientSettings_reads_storage_witness :
  let store : gmap string string :=
    <[INVERT := "true"%string]> (<[SENSITIVITY := "2.5"%string]> ∅) in
  sensitivity (getClientSettings (Some store)) = 2.5%float
  ∧ invert (getClientSettings (Some store)) = true.
Proof.
  intros store.
  destruct (getClientSettings_reads_storage Number) as (_ & _ & H).
  destruct (H store) as (_ & Hs & _ & Hi).
  split.
  - exact (Hs "2.5"%string eq_refl).
  - apply Hi. reflexivity.
Defined.

(** C8, counterexample: with the string -2 stored as sensitivity, the
    sensitivity returned is -2, which is not positive. *)
Lemma stored_sensitivity_need_not_be_positive :
  let settings := getClientSettings (stored (Some "-2"%string) None) in
  sensitivity settings = (-2)%float
  ∧ JS.gt (sensitivity settings) 0%float = false.
Proof. vm_compute. done. Qed.

End Samples.

Section ModifierSamples.

Import Modifier.

(** The toggle and the keys on sample pages. *)
Lemma modifier_cycle_witness :
  handleModifierState {| modifier := Release; buffer := [] |}
  = {| modifier := Active; buffer := [] |}
  ∧ handleModifierState {| modifier := Active; buffer := ["control"%string] |}
    = {| modifier := Hold; buffer := ["control"%string] |}
  ∧ handleModifierState {| modifier := Active; buffer := [] |}
    = {| modifier := Release; buffer := [] |}
  ∧ handleModifierState {| modifier := Hold; buffer := ["control"%string] |}
    = {| modifier := Release; buffer := [] |}
  ∧ handleKeyDown lowerCase "Backspace"%string
      {| modifier := Active; buffer := ["control"%string; "alt"%string] |}
    = ({| modifier := Active; buffer := ["control"%string] |}, [], true)
  ∧ handleKeyDown lowerCase "Escape"%string
      {| modifier := Hold; buffer := ["control"%string] |}
    = ({| modifier := Release; buffer := [] |}, [], true).
Proof.
  split_and!.
  - exact (proj1 (modifier_cycle lowerCase
                    {| modifier := Release; buffer := [] |}) eq_refl).
  - destruct (modifier_cycle lowerCase
                {| modifier := Active; buffer := ["control"%string] |})
      as (_ & H & _).
    apply H; [reflexivity | discriminate].
  - destruct (modifier_cycle lowerCase
                {| modifier := Active; buffer := [] |})
      as (_ & _ & H & _).
    exact (H eq_refl eq_refl).
  - destruct (modifier_cycle lowerCase
                {| modifier := Hold; buffer := ["control"%string] |})
      as (_ & _ & _ & H & _).
    exact (H eq_refl).
  - destruct (modifier_cycle lowerCase
                {| modifier := Active;
                   buffer := ["control"%string; "alt"%string] |})
      as (_ & _ & _ & _ & H & _).
    destruct (H "Backspace"%string) as [_ H']; [discriminate | reflexivity |].
    exact (H' ["control"%string] "alt"%string eq_refl).
  - destruct (modifier_cycle lowerCase
                {| modifier := Hold; buffer := ["control"%string] |})
      as (_ & _ & _ & _ & _ & H).
    apply H; [discriminate | reflexivity].
Defined.

(** In Hold with control buffered, the keys c and v send control+c and
    control+v, and the page is as before. *)
Lemma hold_sends_combo_and_keeps_buffer_witness :
  let p := {| modifier := Hold; buffer := ["control"%string] |} in
  deliver ["c"%string; "v"%string] p
  = (p, [Combo ["control"%string; "c"%string];
         Combo ["control"%string; "v"%string]])
  ∧ handleKeyDown lowerCase "Tab"%string p
    = (p, [Combo ["control"%string; "tab"%string]], true).
Proof.
  intros p.
  destruct (hold_sends_combo_and_keeps_buffer lowerCase p eq_refl)
    as (_ & H2 & H3).
  split.
  - exact (H2 ["c"%string; "v"%string]).
  - apply (H3 "Tab"%string); [discriminate..|vm_compute; lia].
Defined.

(** [length] counts UTF-16 code units: a letter with an accent and a
    Chinese character have length 1, a character outside the basic plane
    has length 2.  So in Hold the key é sends no combo and is left to the
    input event, which hands it to the buffer logic. *)
Example length_counts_code_units :
  JS.length "tab"%string = 3 ∧ JS.length "é"%string = 1
  ∧ JS.length "你"%string = 1 ∧ JS.length "😀"%string = 2
  ∧ let p := {| modifier := Hold; buffer := ["control"%string] |} in
    handleKeyDown lowerCase "é"%string p = (p, [], false).
Proof. vm_compute. done. Qed.

End ModifierSamples.

(** * More facts *)

(** ** Finding, adding and removing tracked touches *)

Lemma filter_all {A} (P : A → Prop) `{∀ x, Decision (P x)} (l : list A) :
  Forall P l → filter P l = l.
Proof.
  induction 1 as [|x l Hx _ IH]; [done|].
  by rewrite filter_cons_True, IH.
Qed.

Lemma filter_agree {A} (P Q : A → Prop)
    `{∀ x, Decision (P x)} `{∀ x, Decision (Q x)} (l : list A) :
  (∀ x, x ∈ l → P x ↔ Q x) → filter P l = filter Q l.
Proof.
  induction l as [|x l IH]; intros HPQ; [done|].
  rewrite !filter_cons.
  assert (Hl : filter P l = filter Q l).
  { apply IH. intros y Hy. apply HPQ. by right. }
  destruct (decide (P x)) as [Hp|Hp], (decide (Q x)) as [Hq|Hq];
    rewrite ?Hl; try done; exfalso.
  - by apply Hq, (HPQ x); [left|].
  - by apply Hp, (HPQ x); [left|].
Qed.

(** With distinct identifiers, the touch found for an identifier is the one
    that has it. *)
Lemma findTouch_NoDup (ts : list TrackedTouch) i t :
  NoDup (ids ts) → ts !! i = Some t → findTouch ts (identifier t) = Some (i, t).
Proof.
  intros Hnd Hi. apply list_find_Some. split_and!; [done..|].
  intros j y Hj Hlt Hid.
  assert (j = i); [|lia].
  apply (NoDup_lookup (ids ts) j i (identifier t) Hnd); unfold ids;
    rewrite list_lookup_fmap.
  - by rewrite Hj, <- Hid.
  - by rewrite Hi.
Qed.

Lemma delete_tracked_filter (ts : list TrackedTouch) i t :
  NoDup (ids ts) → ts !! i = Some t →
  delete i ts = filter (λ x, identifier x ≠ identifier t) ts.
Proof.
  revert i. induction ts as [|x ts IH]; intros i Hnd Hi; [done|].
  simpl in Hnd. apply NoDup_cons in Hnd as [Hx Hnd].
  destruct i as [|i]; simpl in Hi.
  - injection Hi as ->. simpl. rewrite filter_cons_False by (intros H; by apply H).
    symmetry. apply filter_all, Forall_forall. intros y Hy Heq.
    apply Hx. rewrite <- Heq. by apply list_elem_of_fmap_2.
  - assert (identifier x ≠ identifier t).
    { intros Heq. apply Hx. rewrite Heq. apply list_elem_of_fmap_2.
      by eapply list_elem_of_lookup_2. }
    rewrite filter_cons_True by done. simpl. f_equal. by apply IH.
Qed.

(** With distinct identifiers, the loop of [handleTouchEnd] leaves the
    touches that the batch does not name, in their order. *)
Lemma foldl_endTouch_filter cs (ts : list TrackedTouch) rc :
  NoDup (ids ts) →
  (foldl endTouch (ts, rc) cs).1
  = filter (λ t, identifier t ∉ touch_ids cs) ts.
Proof.
  revert ts rc. induction cs as [|c cs IH]; intros ts rc Hnd.
  - simpl. symmetry. apply filter_all, Forall_forall.
    intros t _. apply not_elem_of_nil.
  - simpl. unfold endTouch at 2. simpl.
    destruct (findTouchIndex ts (touch_identifier c)) as [i|] eqn:E.
    + destruct (findTouchIndex_Some _ _ _ E) as (t & Hi & Hid).
      rewrite IH.
      * rewrite (delete_tracked_filter ts i t Hnd Hi), list_filter_filter.
        apply filter_agree. intros x _. rewrite Hid.
        rewrite not_elem_of_cons. tauto.
      * unfold ids. rewrite list_fmap_delete.
        eapply sublist_NoDup; [done | apply sublist_delete].
    + apply findTouchIndex_None in E. rewrite IH by done.
      apply filter_agree. intros x Hx. rewrite not_elem_of_cons.
      split; [|tauto]. intros H. split; [|done]. intros Heq. apply E.
      rewrite <- Heq. by apply list_elem_of_fmap_2.
Qed.

Lemma startTouch_lookup_other now (ts : list TrackedTouch) c i t :
  ts !! i = Some t → identifier t ≠ touch_identifier c →
  startTouch now ts c !! i = Some t.
Proof.
  intros Hi Hne. unfold startTouch.
  destruct (findTouchIndex ts (touch_identifier c)) as [j|] eqn:E.
  - destruct (findTouchIndex_Some _ _ _ E) as (t' & Hj & Hid).
    rewrite list_lookup_insert_ne; [done|]. intros ->. congruence.
  - by apply lookup_app_l_Some.
Qed.

Lemma startTouch_tracks now (ts : list TrackedTouch) c :
  ∃ i, startTouch now ts c !! i = Some (track now c).
Proof.
  unfold startTouch.
  destruct (findTouchIndex ts (touch_identifier c)) as [j|] eqn:E.
  - destruct (findTouchIndex_Some _ _ _ E) as (t' & Hj & _).
    exists j. apply list_lookup_insert_eq. by eapply lookup_lt_Some.
  - exists (length ts). by rewrite list_lookup_middle.
Qed.

Lemma foldl_startTouch_lookup_other now cs (ts : list TrackedTouch) i t :
  ts !! i = Some t → identifier t ∉ touch_ids cs →
  foldl (startTouch now) ts cs !! i = Some t.
Proof.
  revert ts. induction cs as [|c cs IH]; intros ts Hi Hnot; [done|].
  simpl in *. apply not_elem_of_cons in Hnot as [Hc Hcs].
  apply IH; [|done]. by apply startTouch_lookup_other.
Qed.

Lemma foldl_startTouch_tracks now cs (ts : list TrackedTouch) c :
  NoDup (touch_ids cs) → c ∈ cs →
  ∃ i, foldl (startTouch now) ts cs !! i = Some (track now c).
Proof.
  revert ts. induction cs as [|c0 cs IH]; intros ts Hnd Hc.
  - by apply elem_of_nil in Hc.
  - simpl in *. apply NoDup_cons in Hnd as [Hc0 Hnd].
    apply elem_of_cons in Hc as [->|Hc]; [|by apply IH].
    destruct (startTouch_tracks now ts c0) as [i Hi].
    exists i. by apply foldl_startTouch_lookup_other.
Qed.

Lemma ids_foldl_startTouch_prefix now cs (ts : list TrackedTouch) :
  ids ts `prefix_of` ids (foldl (startTouch now) ts cs).
Proof.
  revert ts. induction cs as [|c cs IH]; intros ts; [done|].
  simpl. etrans; [|apply IH]. rewrite ids_startTouch.
  case_decide; [done | by apply prefix_app_r].
Qed.

(** X2: after a touch-start whose contacts have distinct identifiers, every
    contact of the batch is tracked, with the position of the contact as
    its current and as its start position and the time of the event; the
    touches tracked before that the batch does not name are untouched and
    at their place, the new ones come after them, and the identifiers stay
    distinct. *)
Theorem touch_start_tracks_every_contact e s :
  NoDup (touch_ids (changedTouches e)) → NoDup (ids (ongoingTouches s)) →
  let ts' := ongoingTouches (handleTouchStart e s).1 in
  (∀ c, c ∈ changedTouches e →
     ∃ i, findTouch ts' (touch_identifier c)
          = Some (i, track (ev_timeStamp e) c))
  ∧ (∀ i t, ongoingTouches s !! i = Some t →
       identifier t ∉ touch_ids (changedTouches e) → ts' !! i = Some t)
  ∧ ids (ongoingTouches s) `prefix_of` ids ts'
  ∧ NoDup (ids ts').
Proof.
  intros Hcs Hts ts'.
  destruct (handleTouchStart_frame e s) as (Ets & _). subst ts'. rewrite Ets.
  pose proof (NoDup_foldl_startTouch (ev_timeStamp e) (changedTouches e) _ Hts)
    as Hnd.
  split_and!; [| |apply ids_foldl_startTouch_prefix|done].
  - intros c Hc.
    destruct (foldl_startTouch_tracks (ev_timeStamp e) _ (ongoingTouches s) c
                Hcs Hc) as [i Hi].
    exists i. by apply (findTouch_NoDup _ i (track (ev_timeStamp e) c)).
  - intros i t Hi Hnot. by apply foldl_startTouch_lookup_other.
Qed.

(** ** More on the handlers *)

Section MoreGestureFacts.

Context (TOUCH_MOVE_THRESHOLD : list float)
        (TOUCH_TIMEOUT PINCH_THRESHOLD : float)
        (calculateAccelerationMult : float → float)
        (Number : string → float).

Local Abbreviation getClientSettings := (getClientSettings Number).
Local Abbreviation moveThreshold := (moveThreshold TOUCH_MOVE_THRESHOLD).
Local Abbreviation moveTouch :=
  (moveTouch TOUCH_MOVE_THRESHOLD TOUCH_TIMEOUT calculateAccelerationMult).
Local Abbreviation moveBatch :=
  (moveBatch TOUCH_MOVE_THRESHOLD TOUCH_TIMEOUT calculateAccelerationMult).
Local Abbreviation afterMoveBatch :=
  (afterMoveBatch TOUCH_MOVE_THRESHOLD TOUCH_TIMEOUT calculateAccelerationMult).
Local Abbreviation dispatch := (dispatch TOUCH_TIMEOUT PINCH_THRESHOLD Number).
Local Abbreviation handleTouchMove :=
  (handleTouchMove TOUCH_MOVE_THRESHOLD TOUCH_TIMEOUT PINCH_THRESHOLD
                   calculateAccelerationMult Number).
Local Abbreviation handleTouchEnd :=
  (handleTouchEnd TOUCH_MOVE_THRESHOLD TOUCH_TIMEOUT).
Local Abbreviation step :=
  (step TOUCH_MOVE_THRESHOLD TOUCH_TIMEOUT PINCH_THRESHOLD
        calculateAccelerationMult Number).
Local Abbreviation run :=
  (run TOUCH_MOVE_THRESHOLD TOUCH_TIMEOUT PINCH_THRESHOLD
       calculateAccelerationMult Number).
Local Abbreviation reachable :=
  (reachable TOUCH_MOVE_THRESHOLD TOUCH_TIMEOUT PINCH_THRESHOLD
             calculateAccelerationMult Number).
Local Abbreviation Inv := (Inv TOUCH_MOVE_THRESHOLD).
Local Abbreviation endWithin := (endWithin TOUCH_TIMEOUT).
Local Abbreviation moveWithin := (moveWithin TOUCH_TIMEOUT).
Local Abbreviation run_cons :=
  (run_cons TOUCH_MOVE_THRESHOLD TOUCH_TIMEOUT PINCH_THRESHOLD
            calculateAccelerationMult Number).
Local Abbreviation handleTouchMove_frame :=
  (handleTouchMove_frame TOUCH_MOVE_THRESHOLD TOUCH_TIMEOUT PINCH_THRESHOLD
                         calculateAccelerationMult Number).
Local Abbreviation handleTouchMove_no_click :=
  (handleTouchMove_no_click TOUCH_MOVE_THRESHOLD TOUCH_TIMEOUT PINCH_THRESHOLD
                            calculateAccelerationMult Number).
Local Abbreviation reachable_Inv :=
  (reachable_Inv TOUCH_MOVE_THRESHOLD TOUCH_TIMEOUT PINCH_THRESHOLD
                 calculateAccelerationMult Number).
Local Abbreviation Inv_step :=
  (Inv_step TOUCH_MOVE_THRESHOLD TOUCH_TIMEOUT PINCH_THRESHOLD
            calculateAccelerationMult Number).
Local Abbreviation ids_moveTouch :=
  (ids_moveTouch TOUCH_MOVE_THRESHOLD TOUCH_TIMEOUT calculateAccelerationMult).
Local Abbreviation length_moveBatch :=
  (length_moveBatch TOUCH_MOVE_THRESHOLD TOUCH_TIMEOUT
                    calculateAccelerationMult).
Local Abbreviation moved_moveTouch :=
  (moved_moveTouch TOUCH_MOVE_THRESHOLD TOUCH_TIMEOUT
                   calculateAccelerationMult).
Local Abbreviation moved_foldl_moveTouch :=
  (moved_foldl_moveTouch TOUCH_MOVE_THRESHOLD TOUCH_TIMEOUT
                         calculateAccelerationMult).
Local Abbreviation moved_moveBatch :=
  (moved_moveBatch TOUCH_MOVE_THRESHOLD TOUCH_TIMEOUT
                   calculateAccelerationMult).

(** *** Positions under [handleTouchMove] *)

Lemma moveTouch_lookup_other now start acc c i t :
  acc_touches acc !! i = Some t → identifier t ≠ touch_identifier c →
  acc_touches (moveTouch now start acc c) !! i = Some t.
Proof.
  intros Hi Hne. unfold moveTouch.
  destruct (findTouch _ _) as [[j t']|] eqn:E; [|done].
  apply findTouch_Some in E as [Hj Hid].
  assert (j ≠ i) by (intros ->; congruence).
  destruct (JS.gt _ _); simpl; by rewrite list_lookup_insert_ne.
Qed.

Lemma moveTouch_lookup_same now start acc c i t :
  NoDup (ids (acc_touches acc)) →
  acc_touches acc !! i = Some t → identifier t = touch_identifier c →
  acc_touches (moveTouch now start acc c) !! i = Some (moveTo now t c).
Proof.
  intros Hnd Hi Hid. unfold moveTouch.
  rewrite <- Hid, (findTouch_NoDup _ i t Hnd Hi).
  apply lookup_lt_Some in Hi.
  destruct (JS.gt _ _); simpl; by rewrite list_lookup_insert_eq.
Qed.

Lemma foldl_moveTouch_lookup_other now start cs acc i t :
  acc_touches acc !! i = Some t → identifier t ∉ touch_ids cs →
  acc_touches (foldl (moveTouch now start) acc cs) !! i = Some t.
Proof.
  revert acc. induction cs as [|c cs IH]; intros acc Hi Hnot; [done|].
  simpl in *. apply not_elem_of_cons in Hnot as [Hc Hcs].
  apply IH; [|done]. by apply moveTouch_lookup_other.
Qed.

Lemma foldl_moveTouch_lookup_same now start cs acc c i t :
  NoDup (touch_ids cs) → NoDup (ids (acc_touches acc)) → c ∈ cs →
  acc_touches acc !! i = Some t → identifier t = touch_identifier c →
  acc_touches (foldl (moveTouch now start) acc cs) !! i
  = Some (moveTo now t c).
Proof.
  revert acc. induction cs as [|c0 cs IH]; intros acc Hcs Hnd Hc Hi Hid.
  - by apply elem_of_nil in Hc.
  - simpl in *. apply NoDup_cons in Hcs as [Hc0 Hcs].
    apply elem_of_cons in Hc as [->|Hc].
    + apply foldl_moveTouch_lookup_other;
        [|unfold moveTo; simpl; by rewrite Hid].
      by apply moveTouch_lookup_same.
    + apply IH; try done.
      * by rewrite ids_moveTouch.
      * apply moveTouch_lookup_other; [done|]. rewrite Hid. intros Heq.
        apply Hc0. rewrite <- Heq. by apply list_elem_of_fmap_2.
Qed.

(** X3: a touch-move whose contacts have distinct identifiers leaves every
    tracked touch at its place: a touch that the batch names takes the
    position of its contact and the time of the event and keeps its
    identifier and its start position, the others are untouched; none is
    added or removed. *)
Theorem touch_move_updates_positions scrollMode store e s :
  NoDup (touch_ids (changedTouches e)) → NoDup (ids (ongoingTouches s)) →
  let ts' := ongoingTouches (handleTouchMove scrollMode store e s).1 in
  (∀ c i t, c ∈ changedTouches e → ongoingTouches s !! i = Some t →
     identifier t = touch_identifier c →
     ts' !! i = Some (moveTo (ev_timeStamp e) t c))
  ∧ (∀ i t, ongoingTouches s !! i = Some t →
       identifier t ∉ touch_ids (changedTouches e) → ts' !! i = Some t)
  ∧ length ts' = length (ongoingTouches s).
Proof.
  intros Hcs Hts ts'.
  destruct (handleTouchMove_frame scrollMode store e s) as (Ets & _).
  subst ts'. rewrite Ets. split_and!.
  - intros c i t Hc Hi Hid. by apply foldl_moveTouch_lookup_same.
  - intros i t Hi Hnot. by apply foldl_moveTouch_lookup_other.
  - apply length_moveBatch.
Qed.

(** *** What sets [moved] *)

Lemma moveTouch_keeps_origin now start acc c i tr :
  acc_touches acc !! i = Some tr →
  ∃ tr', acc_touches (moveTouch now start acc c) !! i = Some tr'
         ∧ identifier tr' = identifier tr
         ∧ pageXStart tr' = pageXStart tr ∧ pageYStart tr' = pageYStart tr.
Proof.
  intros Hi. unfold moveTouch.
  destruct (findTouch _ _) as [[j t']|] eqn:E; [|by exists tr].
  apply findTouch_Some in E as [Hj _].
  destruct (decide (j = i)) as [->|Hne].
  - assert (t' = tr) as -> by congruence. apply lookup_lt_Some in Hi.
    destruct (JS.gt _ _); simpl; eexists;
      (split; [by apply list_lookup_insert_eq | done]).
  - exists tr.
    destruct (JS.gt _ _); simpl; by rewrite list_lookup_insert_ne.
Qed.

Lemma moveTouch_promotes now start acc c i tr :
  NoDup (ids (acc_touches acc)) →
  acc_touches acc !! i = Some tr → identifier tr = touch_identifier c →
  JS.gt_entry (travel c tr) (moveThreshold (length (acc_touches acc)))
  || JS.ge (now - start)%float TOUCH_TIMEOUT = true →
  acc_moved (moveTouch now start acc c) = true.
Proof.
  intros Hnd Hi Hid Hfar. unfold moveTouch.
  rewrite <- Hid, (findTouch_NoDup _ i tr Hnd Hi).
  destruct (acc_moved acc); destruct (JS.gt _ _); simpl; done.
Qed.

Lemma foldl_moveTouch_promotes now start cs :
  ∀ acc c i tr,
    NoDup (ids (acc_touches acc)) → c ∈ cs →
    acc_touches acc !! i = Some tr → identifier tr = touch_identifier c →
    JS.gt_entry (travel c tr) (moveThreshold (length (acc_touches acc)))
    || JS.ge (now - start)%float TOUCH_TIMEOUT = true →
    acc_moved (foldl (moveTouch now start) acc cs) = true.
Proof.
  induction cs as [|c0 cs IH]; intros acc c i tr Hnd Hc Hi Hid Hfar.
  - by apply elem_of_nil in Hc.
  - simpl. apply elem_of_cons in Hc as [->|Hc].
    + apply moved_foldl_moveTouch. by eapply moveTouch_promotes.
    + destruct (moveTouch_keeps_origin now start acc c0 i tr Hi)
        as (tr' & Hi' & Hid' & Hx & Hy).
      apply (IH _ c i tr'); try done.
      * by rewrite ids_moveTouch.
      * congruence.
      * rewrite <- !length_ids, ids_moveTouch, length_ids.
        unfold travel in *. by rewrite Hx, Hy.
Qed.

(** X7: a touch-move sets [moved] as soon as one of its contacts is that
    of a tracked touch and either lies farther from where that touch
    started than the threshold for the number of active touches, or comes
    at least the timeout after the start of the session. *)
Theorem far_or_late_contact_sets_moved scrollMode store e s c i tr :
  NoDup (ids (ongoingTouches s)) → c ∈ changedTouches e →
  ongoingTouches s !! i = Some tr → identifier tr = touch_identifier c →
  JS.gt_entry (travel c tr) (moveThreshold (length (ongoingTouches s)))
  || JS.ge (ev_timeStamp e - startTimeStamp s)%float TOUCH_TIMEOUT = true →
  moved (handleTouchMove scrollMode store e s).1 = true.
Proof.
  intros Hnd Hc Hi Hid Hfar.
  destruct (handleTouchMove_frame scrollMode store e s) as (_ & -> & _).
  by apply (foldl_moveTouch_promotes _ _ _ _ c i tr).
Qed.

(** *** The whole of [handleTouchEnd] *)

(** What [handleTouchEnd] does, in terms of the touches [r.1] its loop
    leaves and of the release count [r.2] it reaches: either a touch is left
    or nothing was released, and only the touches, the count,
    [lastEndTimeStamp], [moved] and the pinch change; or the session is
    evaluated. *)
Lemma handleTouchEnd_fields e s :
  let r := foldl endTouch (ongoingTouches s, releasedCount s)
                 (changedTouches e) in
  let s' := (handleTouchEnd e s).1 in
  let tap := negb (moved s')
             && JS.lt (ev_timeStamp e - startTimeStamp s)%float TOUCH_TIMEOUT in
  ongoingTouches s' = r.1
  ∧ lastEndTimeStamp s' = ev_timeStamp e
  ∧ startTimeStamp s' = startTimeStamp s
  ∧ moved s'
    = (if bool_decide (length TOUCH_MOVE_THRESHOLD < r.2) then true
       else moved s)
  ∧ (0 < length r.1 ∨ r.2 = 0 →
     releasedCount s' = r.2 ∧ dragging s' = dragging s
     ∧ draggingTimeout s' = draggingTimeout s
     ∧ isTracking s' = isTracking s ∧ (handleTouchEnd e s).2 = [])
  ∧ (r.1 = [] → 1 ≤ r.2 →
     releasedCount s' = 0 ∧ dragging s' = false ∧ isTracking s' = false
     ∧ (handleTouchEnd e s).2
       = (if dragging s then [Click Left false] else [])
         ++ (if tap then tapClicks r.2 else [])
     ∧ draggingTimeout s'
       = (if tap then
            match tapButton r.2 with
            | Some Left => Some TOUCH_TIMEOUT
            | _ => draggingTimeout s
            end
          else draggingTimeout s)).
Proof.
  unfold handleTouchEnd.
  destruct (foldl endTouch _ _) as [ts rel]. simpl.
  destruct (bool_decide_reflect (length ts = 0)) as [Hz|Hz];
    destruct (bool_decide_reflect (1 ≤ rel)) as [Hr|Hr]; simpl.
  - destruct (bool_decide (length ts < 2));
      destruct (bool_decide (length TOUCH_MOVE_THRESHOLD < rel)); simpl;
      (destruct (moved s); simpl);
      try (destruct (JS.lt _ _); simpl);
      try (unfold tapClicks; destruct (tapButton rel) as [[]|]; simpl);
      (split_and!; try done; try (intros [?|?]; lia);
       intros _ _; destruct (dragging s); by rewrite ?app_nil_r).
  - destruct (bool_decide (length ts < 2)); simpl;
      (split_and!; try done; intros; lia).
  - destruct (bool_decide (length ts < 2)); simpl;
      (split_and!; try done; intros ->; simpl in *; lia).
  - destruct (bool_decide (length ts < 2)); simpl;
      (split_and!; try done; intros ->; simpl in *; lia).
Qed.

(** X4: with distinct tracked identifiers, a touch-end removes exactly the
    touches its batch names and keeps the others in their order, and sets
    [lastEndTimeStamp] to the time of the event; while a touch is left, the
    release count grows by the number of touches removed, and when the last
    touch goes the count is back to zero. *)
Theorem touch_end_removes_named_touches e s :
  NoDup (ids (ongoingTouches s)) →
  let s' := (handleTouchEnd e s).1 in
  ongoingTouches s'
  = filter (λ t, identifier t ∉ touch_ids (changedTouches e))
           (ongoingTouches s)
  ∧ lastEndTimeStamp s' = ev_timeStamp e
  ∧ (0 < length (ongoingTouches s') →
     releasedCount s' + length (ongoingTouches s')
     = releasedCount s + length (ongoingTouches s))
  ∧ (ongoingTouches s' = [] → 0 < length (ongoingTouches s) →
     releasedCount s' = 0).
Proof.
  intros Hnd s'.
  destruct (handleTouchEnd_fields e s) as (Ets & Et & _ & _ & Hleft & Hfinal).
  pose proof (foldl_endTouch_conserve (changedTouches e)
                (ongoingTouches s, releasedCount s)) as Hc.
  simpl in Hc. subst s'. rewrite Ets. split_and!.
  - by apply foldl_endTouch_filter.
  - done.
  - intros Hlen. destruct Hleft as (-> & _); [by left | lia].
  - intros Hnil Hlen. rewrite Hnil in Hc. simpl in Hc.
    destruct Hfinal as (-> & _); [done | lia | done].
Qed.

(** *** Taps, by the number of fingers *)

Lemma lifted_handleTouchEnd e s :
  lifted s → lifted (handleTouchEnd e s).1 ∧ (handleTouchEnd e s).2 = [].
Proof.
  intros [Hts Hrc].
  destruct (handleTouchEnd_fields e s) as (Ets & _ & _ & _ & Hleft & _).
  rewrite Hts, Hrc, foldl_endTouch_nil in Ets, Hleft. simpl in *.
  destruct Hleft as (Erc & _ & _ & _ & Eo); [by right|].
  by split.
Qed.

Lemma lifted_run evs s :
  lifted s → forallb isMoveOrEnd evs = true →
  Forall (λ ev, isMove ev = false) evs → (run evs s).2 = [].
Proof.
  revert s. induction evs as [|ev evs IH]; intros s Hl Hevs Hends; [done|].
  simpl in Hevs. apply andb_true_iff in Hevs as [Hev Hevs].
  apply Forall_cons in Hends as [Hend Hends].
  destruct ev as [|? ? ?|e|]; try done.
  rewrite run_cons. simpl.
  destruct (lifted_handleTouchEnd e s Hl) as [Hl1 ->].
  by apply IH.
Qed.

Lemma lifting_handleTouchEnd n start drag e s :
  lifting n start drag s → n ≤ length TOUCH_MOVE_THRESHOLD →
  JS.lt (ev_timeStamp e - start)%float TOUCH_TIMEOUT = true →
  (lifting n start drag (handleTouchEnd e s).1 ∧ (handleTouchEnd e s).2 = [])
  ∨ (lifted (handleTouchEnd e s).1
     ∧ (handleTouchEnd e s).2
       = (if drag then [Click Left false] else []) ++ tapClicks n).
Proof.
  intros (Hm & Hst & Hn & Hlen & Hd & Ht) Htable Hnow.
  destruct (handleTouchEnd_fields e s)
    as (Ets & _ & Est & Em & Hleft & Hfinal).
  pose proof (foldl_endTouch_conserve (changedTouches e)
                (ongoingTouches s, releasedCount s)) as Hc.
  simpl in Hc.
  destruct (foldl endTouch _ _) as [ts rel]. simpl in *.
  rewrite (bool_decide_eq_false_2 (_ < rel)) in Em by lia.
  destruct ts as [|t ts].
  - right. simpl in Hc.
    destruct Hfinal as (Erc & _ & _ & Eo & _); [done | lia |].
    split; [by split|].
    rewrite Eo, Em, Hm, Hst, Hnow, Hd. simpl.
    by replace rel with n by lia.
  - left. destruct Hleft as (Erc & Ed & Eti & _ & Eo); [left; simpl; lia|].
    split; [|done]. unfold lifting.
    rewrite Em, Est, Erc, Ets, Ed, Eti. simpl in *.
    split_and!; try done; lia.
Qed.

Lemma lifting_run n start drag evs s :
  lifting n start drag s → n ≤ length TOUCH_MOVE_THRESHOLD →
  forallb (endWithin start) evs = true →
  ongoingTouches (run evs s).1 = [] →
  (run evs s).2 = (if drag then [Click Left false] else []) ++ tapClicks n.
Proof.
  intros Hl Htable. revert s Hl.
  induction evs as [|ev evs IH]; intros s Hl Hevs Hnil.
  - destruct Hl as (_ & _ & _ & Hlen & _). simpl in Hnil.
    rewrite Hnil in Hlen. simpl in Hlen. lia.
  - simpl in Hevs. apply andb_true_iff in Hevs as [Hev Hevs].
    destruct ev as [| |e|]; try done. simpl in Hev.
    rewrite run_cons in *. simpl in *.
    destruct (lifting_handleTouchEnd n start drag e s Hl Htable Hev)
      as [[Hl1 ->]|[Hl1 ->]].
    + by apply IH.
    + rewrite lifted_run; [by rewrite app_nil_r|done|..].
      * clear -Hevs. induction evs as [|[] evs IH]; simpl in *; try done.
        apply andb_true_iff in Hevs as [_ Hevs]. by apply IH.
      * clear -Hevs. induction evs as [|[] evs IH]; simpl in *; try done.
        apply andb_true_iff in Hevs as [_ Hevs]. constructor; [done|by apply IH].
Qed.

(** X5: fingers that touch at once, no more of them than the table has
    thresholds, and are lifted within the timeout without a move in
    between, in one touch-end or in several, are a tap by their number: the
    touch-end that lifts the last one sends the press of the left button
    for one finger, a press and a release of the right button for two and
    of the middle button for three, and nothing for more; before them it
    sends the release of a drag when the fingers touched during the
    release delay of an earlier tap. *)
Theorem lifted_fingers_are_counted s0 e0 ends :
  reachable s0 → ongoingTouches s0 = [] →
  changedTouches e0 ≠ [] → NoDup (touch_ids (changedTouches e0)) →
  length (changedTouches e0) ≤ length TOUCH_MOVE_THRESHOLD →
  forallb (endWithin (ev_timeStamp e0)) ends = true →
  ongoingTouches (run (TouchStart e0 :: ends) s0).1 = [] →
  (run (TouchStart e0 :: ends) s0).2
  = match draggingTimeout s0 with
    | Some _ => [Click Left false]
    | None => []
    end ++ tapClicks (length (changedTouches e0)).
Proof.
  intros [_ Hidle _ _ _]%reachable_Inv Hts0 Hne Hnd Htable Hends.
  destruct (Hidle Hts0) as [Hrc0 Hd0].
  destruct (handleTouchStart_frame e0 s0)
    as (Ets & Em & Est & Erc & Ed & Et & Eo).
  rewrite Hts0 in Ets, Em, Est. simpl in Em, Est.
  assert (Hids : ids (ongoingTouches (handleTouchStart e0 s0).1)
                 = touch_ids (changedTouches e0)).
  { rewrite Ets, ids_foldl_startTouch_new; [done|done|].
    intros id _. apply not_elem_of_nil. }
  assert (Hlen : length (ongoingTouches (handleTouchStart e0 s0).1)
                 = length (changedTouches e0)).
  { rewrite <- length_ids, Hids. apply length_fmap. }
  rewrite run_cons. simpl. rewrite Eo. simpl. intros Hnil.
  rewrite (lifting_run (length (changedTouches e0)) (ev_timeStamp e0)
             (dragging (handleTouchStart e0 s0).1) ends); try done.
  - rewrite Ed, Hd0. by destruct (draggingTimeout s0).
  - unfold lifting. rewrite Hlen, Erc, Hrc0.
    split_and!; try done. destruct (changedTouches e0); [done|simpl; lia].
Qed.

(** *** [moved] within a session *)

(** X6: once set, [moved] stays set whatever event comes, but for a
    touch-start that finds no touch active; that touch-start, the first of
    a session, clears it and takes its time as the start of the session. *)
Theorem moved_is_sticky_within_a_session ev s :
  (moved s = true →
   (∀ e, ev = TouchStart e → ongoingTouches s ≠ []) →
   moved (step ev s).1 = true)
  ∧ (∀ e, ev = TouchStart e → ongoingTouches s = [] →
     moved (step ev s).1 = false
     ∧ startTimeStamp (step ev s).1 = ev_timeStamp e).
Proof.
  split.
  - intros Hm Hstart. destruct ev as [e|scrollMode store e|e|]; simpl.
    + destruct (handleTouchStart_frame e s) as (_ & -> & _).
      rewrite bool_decide_eq_false_2; [done|].
      specialize (Hstart e eq_refl). by destruct (ongoingTouches s).
    + destruct (handleTouchMove_frame scrollMode store e s) as (_ & -> & _).
      by apply moved_moveBatch.
    + destruct (handleTouchEnd_fields e s) as (_ & _ & _ & -> & _).
      rewrite Hm. by destruct (bool_decide _).
    + by destruct (draggingTimeout s).
  - intros e -> Hts. simpl.
    destruct (handleTouchStart_frame e s) as (_ & -> & -> & _).
    by rewrite Hts.
Qed.

(** *** The debounce after a touch-end *)

Lemma debounced_step since ev s :
  lastEndTimeStamp s = since → moveWithin since ev = true →
  (step ev s).2 = [] ∧ lastEndTimeStamp (step ev s).1 = since.
Proof.
  intros Hs Hev. destruct ev as [|scrollMode store e| |]; try done.
  simpl in *.
  destruct (handleTouchMove_frame scrollMode store e s)
    as (_ & _ & _ & -> & _).
  split; [|done]. unfold handleTouchMove, dispatch, afterMoveBatch. simpl.
  rewrite Hs, (lt_not_ge _ _ Hev). by rewrite andb_false_r.
Qed.


(** *** The left button on the other side *)

Lemma leftButton_app held out1 out2 :
  leftButton held (out1 ++ out2)
  = leftButton held out1 ≫= λ held1, leftButton held1 out2.
Proof.
  revert held. induction out1 as [|m out1 IH]; intros held; [done|].
  destruct m as [[] press| | |]; simpl; try apply IH.
  by destruct (Bool.eqb press held).
Qed.

Lemma leftButton_no_click held out :
  Forall (λ m, isClick m = false) out → leftButton held out = Some held.
Proof. induction 1 as [|[] out Hm _ IH]; done. Qed.

(** Every event leaves the left button as the state says, and sends no
    press while it is down and no release while it is up. *)
Lemma leftButton_step ev s :
  Inv s → leftButton (leftHeld s) (step ev s).2 = Some (leftHeld (step ev s).1).
Proof.
  intros [_ Hidle Htimer _ _].
  destruct ev as [e|scrollMode store e|e|]; simpl.
  - destruct (handleTouchStart_frame e s) as (_ & _ & _ & _ & Ed & Et & ->).
    unfold leftHeld. rewrite Ed, Et. by destruct (draggingTimeout s).
  - destruct (handleTouchMove_frame scrollMode store e s)
      as (_ & _ & _ & _ & _ & Ed & Et & _).
    rewrite leftButton_no_click by apply handleTouchMove_no_click.
    unfold leftHeld. by rewrite Ed, Et.
  - destruct (handleTouchEnd_fields e s) as (_ & _ & _ & _ & Hleft & Hfinal).
    destruct (foldl endTouch _ _) as [ts rel] eqn:E. simpl in *.
    destruct ts as [|t ts]; [destruct rel as [|rel]|].
    + destruct Hleft as (_ & Ed & Et & _ & ->); [by right|].
      unfold leftHeld. by rewrite Ed, Et.
    + assert (Hnone : draggingTimeout s = None).
      { destruct (draggingTimeout s) eqn:Ets; [|done]. exfalso.
        assert (Hts : ongoingTouches s = []) by (apply Htimer; by eexists).
        destruct (Hidle Hts) as [Hrc _].
        rewrite Hts, Hrc, foldl_endTouch_nil in E. discriminate. }
      destruct Hfinal as (_ & Ed & _ & -> & Et); [done | lia |].
      unfold leftHeld. rewrite Ed, Et, Hnone.
      destruct (dragging s); destruct (negb _ && JS.lt _ _);
        unfold tapClicks, tapButton; by destruct rel as [|[|[|rel]]].
    + destruct Hleft as (_ & Ed & Et & _ & ->); [left; simpl; lia|].
      unfold leftHeld. by rewrite Ed, Et.
  - unfold leftHeld. destruct (draggingTimeout s) eqn:Ets; simpl.
    + assert (Hts : ongoingTouches s = []) by (apply Htimer; by eexists).
      by destruct (Hidle Hts) as [_ ->].
    + by rewrite Ets.
Qed.

Lemma leftButton_run evs s :
  Inv s → Forall delivered evs →
  leftButton (leftHeld s) (run evs s).2 = Some (leftHeld (run evs s).1).
Proof.
  revert s. induction evs as [|ev evs IH]; intros s HI Hevs; [done|].
  apply Forall_cons in Hevs as [Hev Hevs].
  rewrite run_cons. simpl.
  rewrite leftButton_app, (leftButton_step ev s HI). simpl.
  apply IH; [by apply Inv_step | done].
Qed.

(** X9: whatever events the hook receives from its first render on, the
    presses and the releases of the left button that it sends alternate,
    starting with a press; and the button is down after them exactly when
    a drag is on or the release of a tap is still scheduled, so that the
    end of the drag or the timer will release it. *)
Theorem left_button_presses_and_releases_alternate evs :
  Forall delivered evs →
  leftButton false (run evs initial).2 = Some (leftHeld (run evs initial).1).
Proof.
  intros Hevs. apply (leftButton_run evs initial); [|done].
  apply Inv_initial.
Qed.

(** *** The scroll mode, and what each handler sends *)

Lemma handlers_click_kinds e s :
  Forall (λ m, isClick m = true) (handleTouchEnd e s).2
  ∧ length (handleTouchEnd e s).2 ≤ 3.
Proof.
  destruct (handleTouchEnd_fields e s) as (_ & _ & _ & _ & Hleft & Hfinal).
  destruct (foldl endTouch _ _) as [ts rel]. simpl in *.
  destruct ts as [|t ts]; [destruct rel as [|rel]|].
  - destruct Hleft as (_ & _ & _ & _ & ->); [by right|]. split; [done|simpl; lia].
  - destruct Hfinal as (_ & _ & _ & -> & _); [done | lia |].
    destruct (dragging s); destruct (negb _ && JS.lt _ _);
      unfold tapClicks, tapButton; destruct rel as [|[|[|rel]]];
      (split; [by repeat constructor | simpl; lia]).
  - destruct Hleft as (_ & _ & _ & _ & ->); [left; simpl; lia|].
    split; [done|simpl; lia].
Qed.

(** X10: in scroll mode a touch-move, whatever the number of touches and
    the drag state, sends either nothing or one scroll, which carries the
    sums of the batch times the sensitivity times the sign of the invert
    setting; it sends the scroll exactly when [moved] is set once the batch
    is processed and the debounce time has passed, and it never touches
    the pinch baseline or flag.  So a gesture made in scroll mode sends no
    zoom and no move. *)
Theorem scroll_mode_only_scrolls store e s :
  let r := handleTouchMove true store e s in
  let acc := moveBatch e s in
  let settings := getClientSettings store in
  let sign := if invert settings then 1%float else (-1)%float in
  r.2 = (if acc_moved acc
            && JS.ge (ev_timeStamp e - lastEndTimeStamp s)%float TOUCH_TIMEOUT
         then [Scroll (sumX acc * sensitivity settings * sign)%float
                      (sumY acc * sensitivity settings * sign)%float]
         else [])
  ∧ lastPinchDist r.1 = lastPinchDist s ∧ pinching r.1 = pinching s
  ∧ ∀ evs s0, forallb inScrollMode evs = true →
      Forall (λ m, isZoom m = false ∧ isMoveMsg m = false) (run evs s0).2.
Proof.
  split_and!.
  - unfold handleTouchMove, dispatch, afterMoveBatch. simpl.
    destruct (acc_moved _ && _); simpl; done.
  - unfold handleTouchMove, dispatch, afterMoveBatch. simpl.
    destruct (acc_moved _ && _); simpl; done.
  - unfold handleTouchMove, dispatch, afterMoveBatch. simpl.
    destruct (acc_moved _ && _); simpl; done.
  - intros evs. induction evs as [|ev evs IH]; intros s0 Hevs; [constructor|].
    simpl in Hevs. apply andb_true_iff in Hevs as [Hev Hevs].
    rewrite run_cons. simpl. apply Forall_app. split; [|by apply IH].
    destruct ev as [e0|scrollMode st e0|e0|]; simpl in *.
    + destruct (handleTouchStart_frame e0 s0) as (_ & _ & _ & _ & _ & _ & ->).
      constructor.
    + subst scrollMode.
      unfold handleTouchMove, dispatch, afterMoveBatch. simpl.
      destruct (acc_moved _ && _); simpl; by repeat constructor.
    + destruct (handlers_click_kinds e0 s0) as [Hc _].
      eapply Forall_impl; [exact Hc|]. by intros [].
    + destruct (draggingTimeout s0); by repeat constructor.
Qed.

(** X11: which handler sends what: a touch-start sends nothing, a
    touch-move sends no click, and a touch-end sends clicks only, three at
    most. *)
Theorem handlers_send_their_own_kinds scrollMode store e s :
  (handleTouchStart e s).2 = []
  ∧ Forall (λ m, isClick m = false) (handleTouchMove scrollMode store e s).2
  ∧ Forall (λ m, isClick m = true) (handleTouchEnd e s).2
  ∧ length (handleTouchEnd e s).2 ≤ 3.
Proof.
  split_and!.
  - by destruct (handleTouchStart_frame e s) as (_ & _ & _ & _ & _ & _ & ->).
  - apply handleTouchMove_no_click.
  - apply handlers_click_kinds.
  - apply handlers_click_kinds.
Qed.

(** *** The states the hook can reach *)

Lemma reachable_isTracking s :
  reachable s → (isTracking s = true ↔ ongoingTouches s ≠ []).
Proof.
  induction 1 as [|ev s Hs IH Hd]; [done|].
  apply reachable_Inv in Hs as [_ Hidle _ _ _].
  destruct ev as [e|scrollMode store e|e|]; simpl in *.
  - destruct (handleTouchStart_frame e s) as (Ets & _).
    assert (isTracking (handleTouchStart e s).1 = true) as ->.
    { unfold handleTouchStart.
      destruct (foldl _ _ _) as [|a [|b [|c ts]]];
        by destruct (draggingTimeout s). }
    rewrite Ets. split; [intros _|done].
    by apply foldl_startTouch_nonempty.
  - destruct (handleTouchMove_frame scrollMode store e s)
      as (Ets & _ & _ & _ & _ & _ & _ & Etr & _).
    pose proof (length_moveBatch e s) as Hlen.
    rewrite Etr, Ets, IH.
    destruct (acc_touches (moveBatch e s)), (ongoingTouches s); done.
  - destruct (handleTouchEnd_fields e s) as (Ets & _ & _ & _ & Hleft & Hfinal).
    pose proof (foldl_endTouch_conserve (changedTouches e)
                  (ongoingTouches s, releasedCount s)) as Hc.
    destruct (foldl endTouch _ _) as [ts rel]. simpl in *. rewrite Ets.
    destruct ts as [|t ts]; [destruct rel as [|rel]|].
    + destruct Hleft as (_ & _ & _ & -> & _); [by right|].
      rewrite IH. simpl in Hc.
      assert (ongoingTouches s = []) as -> by (apply nil_length_inv; lia).
      done.
    + by destruct Hfinal as (_ & _ & -> & _); [|lia|].
    + destruct Hleft as (_ & _ & _ & -> & _); [left; simpl; lia|].
      rewrite IH. split; [done|]. intros _ Hnil. rewrite Hnil in Hc.
      destruct (Hidle Hnil) as [Hrc _]. rewrite Hrc in Hc.
      apply (f_equal length) in Hnil. simpl in Hc. lia.
  - by destruct (draggingTimeout s).
Qed.

(** X1: in every state the hook can reach, the tracked identifiers are
    pairwise distinct; the release timer is scheduled only while no touch
    is active and a drag is on only while one is; and while no touch is
    active nothing is counted as released and the pinch baseline and flag
    are cleared. *)
Theorem session_state_invariants s :
  reachable s →
  NoDup (ids (ongoingTouches s))
  ∧ (is_Some (draggingTimeout s) → ongoingTouches s = [])
  ∧ (dragging s = true → ongoingTouches s ≠ [])
  ∧ (ongoingTouches s = [] →
     releasedCount s = 0 ∧ lastPinchDist s = None ∧ pinching s = false).
Proof.
  intros [Hnd Hidle Htimer Hpinch _]%reachable_Inv. split_and!; try done.
  - intros Hd Hts. destruct (Hidle Hts) as [_ Hd']. congruence.
  - intros Hts. destruct (Hidle Hts) as [-> _].
    destruct Hpinch as [-> ->]; [rewrite Hts; simpl; lia | done].
Qed.

(** X12: in every state the hook can reach, [isTracking] is set exactly
    while a touch is active. *)
Theorem tracking_flag_shows_active_touches s :
  reachable s → (isTracking s = true ↔ ongoingTouches s ≠ []).
Proof. apply reachable_isTracking. Qed.

End MoreGestureFacts.

(** ** The client settings, written and read *)

Section SettingsFacts.

Import SettingsPage.

Context (Number : string → float) (stringOfNumber : float → string).

Local Abbreviation getClientSettings := (getClientSettings Number).
Local Abbreviation loadClientSettings := (loadClientSettings Number).
Local Abbreviation persistSensitivity := (persistSensitivity stringOfNumber).

Lemma keys_differ : SENSITIVITY ≠ INVERT.
Proof. done. Qed.

Lemma stringOfBool_true b : stringOfBool b = "true"%string ↔ b = true.
Proof. by destruct b. Qed.

(** X13: the settings page and the gesture hook read the same settings:
    what the loading effect of the page puts into its state, starting from
    the defaults, is what [getClientSettings] returns for the same
    storage. *)
Theorem settings_page_reads_what_the_hook_reads (store : gmap string string) :
  loadClientSettings
    {| sensitivity := DEFAULT_SENSITIVITY; invert := DEFAULT_INVERT |} store
  = getClientSettings (Some store).
Proof.
  unfold loadClientSettings, getClientSettings.
  simpl. f_equal.
  destruct (store !! INVERT) as [v|]; [|done].
  destruct (decide (v = "true"%string)) as [->|Hne]; [done|].
  rewrite (bool_decide_eq_false_2 (Some v = Some "true"%string))
    by congruence.
  by case_bool_decide.
Qed.

(** X14: the effect that persists the invert flag does nothing on the
    server or before the settings are loaded; its first run after that
    only clears its first-run flag and leaves the storage as it is; every
    later run stores the flag, and the hook then reads that flag back, with
    the sensitivity it read before. *)
Theorem persisted_invert_is_read_back window b flags
    (store : gmap string string) :
  let r := persistInvert window b flags store in
  (window = false ∨ hasLoadedFromStorage flags = false → r = (flags, store))
  ∧ (window = true → hasLoadedFromStorage flags = true →
     isFirstInvert flags = true →
     r.2 = store ∧ isFirstInvert r.1 = false
     ∧ hasLoadedFromStorage r.1 = true)
  ∧ (window = true → hasLoadedFromStorage flags = true →
     isFirstInvert flags = false →
     r.1 = flags
     ∧ invert (getClientSettings (Some r.2)) = b
     ∧ sensitivity (getClientSettings (Some r.2))
       = sensitivity (getClientSettings (Some store))).
Proof.
  unfold persistInvert. split_and!.
  - intros [-> | ->]; [done | by rewrite orb_true_r].
  - intros -> -> ->. done.
  - intros -> -> ->. simpl. split_and!; [done| |].
    + rewrite lookup_insert_eq. by destruct b.
    + by rewrite lookup_insert_ne by done.
Qed.

(** X15: a later run of the effect that persists the sensitivity stores
    the string of the value; when the value is not NaN and its string
    converts back to it, the hook then reads that value back, with the
    invert flag it read before. *)
Theorem persisted_sensitivity_is_read_back x flags
    (store : gmap string string) :
  hasLoadedFromStorage flags = true → isFirstSensitivity flags = false →
  Number (stringOfNumber x) = x → JS.isNaN x = false →
  let r := persistSensitivity true x flags store in
  r.1 = flags
  ∧ sensitivity (getClientSettings (Some r.2)) = x
  ∧ invert (getClientSettings (Some r.2))
    = invert (getClientSettings (Some store)).
Proof.
  intros Hl Hf Hx Hnan. unfold persistSensitivity.
  rewrite Hl, Hf. simpl. split_and!; [done| |].
  - by rewrite lookup_insert_eq, Hx, Hnan.
  - by rewrite lookup_insert_ne by done.
Qed.

(** X20: the theme the page loads is always one of the two themes it
    knows: a stored name is taken only when it is one of them, and the
    default else; so a known theme that was stored is the one loaded. *)
Theorem loaded_theme_is_known (t : string) (store : gmap string string) :
  (loadTheme THEME_DEFAULT store = THEME_LIGHT
   ∨ loadTheme THEME_DEFAULT store = THEME_DARK)
  ∧ loadTheme THEME_DEFAULT (<[THEME := t]> store)
    = (if bool_decide (t = THEME_LIGHT) || bool_decide (t = THEME_DARK)
       then t else THEME_DEFAULT).
Proof.
  unfold loadTheme. split.
  - destruct (store !! THEME) as [t'|]; [|by right].
    destruct (bool_decide_reflect (t' = THEME_LIGHT)); simpl; [by left|].
    destruct (bool_decide_reflect (t' = THEME_DARK)); simpl; by right.
  - by rewrite lookup_insert_eq.
Qed.

Lemma orElse_nonempty a b : b ≠ ""%string → orElse a b ≠ ""%string.
Proof.
  intros Hb. unfold orElse. destruct a as [s|]; [|done].
  by case_bool_decide.
Qed.

(** X21: the address the page loads is never empty: it is the stored
    address when there is one that is not empty; else, nothing or the empty
    string being stored, the host name when that is not empty, and
    localhost when it is; and an address that is not empty and was
    persisted is the one loaded, whatever the host name, while the empty
    address is never persisted. *)
Theorem loaded_ip_is_never_empty (hostname ip : string)
    (store : gmap string string) :
  loadIp hostname store ≠ ""%string
  ∧ (∀ stored, store !! IP = Some stored → stored ≠ ""%string →
     loadIp hostname store = stored)
  ∧ (store !! IP = None ∨ store !! IP = Some ""%string →
     (hostname ≠ ""%string → loadIp hostname store = hostname)
     ∧ (hostname = ""%string → loadIp hostname store = "localhost"%string))
  ∧ (ip ≠ ""%string → loadIp hostname (persistIp ip store) = ip)
  ∧ persistIp ""%string store = store.
Proof.
  unfold loadIp. split_and!.
  - apply orElse_nonempty, orElse_nonempty. done.
  - intros stored -> Hs. simpl. by rewrite bool_decide_eq_false_2.
  - intros [-> | ->]; simpl; (split; [intros Hh | by intros ->]);
      by rewrite bool_decide_eq_false_2.
  - intros Hip. unfold persistIp.
    rewrite bool_decide_eq_false_2 by done. rewrite lookup_insert_eq.
    simpl. by rewrite bool_decide_eq_false_2.
  - done.
Qed.

End SettingsFacts.

(** ** The modifier buffer and the text input *)

Section KeyboardFacts.

Import Modifier TextInput.

Context (toLowerCase : string → string).

Local Abbreviation handleKeyDown := (handleKeyDown toLowerCase).

Lemma deliver_active keys p :
  modifier p = Active →
  deliver keys p
  = ({| modifier := Active; buffer := buffer p ++ keys |}, []).
Proof.
  revert p. induction keys as [|key keys IH]; intros [m b] Hm;
    simpl in *; subst m.
  - by rewrite app_nil_r.
  - unfold handleModifier. simpl. rewrite IH by done. simpl.
    by rewrite <- app_assoc.
Qed.

(** X16: one round of the modifier: from Release, whatever the buffer
    holds, the toggle starts an empty buffer; the keys delivered then are
    buffered in their order and nothing is sent; the next toggle, the
    buffer not being empty, holds them; a key then sends the buffered keys
    followed by it; and the last toggle is back at Release with an empty
    buffer.  With no key delivered, the second toggle is back at Release at
    once. *)
Theorem modifier_round b0 keys k :
  keys ≠ [] →
  let p1 := handleModifierState {| modifier := Release; buffer := b0 |} in
  let r2 := deliver keys p1 in
  let p3 := handleModifierState r2.1 in
  p1 = {| modifier := Active; buffer := [] |}
  ∧ r2 = ({| modifier := Active; buffer := keys |}, [])
  ∧ p3 = {| modifier := Hold; buffer := keys |}
  ∧ handleModifier k p3 = (p3, [Combo (keys ++ [k])])
  ∧ handleModifierState p3 = {| modifier := Release; buffer := [] |}
  ∧ handleModifierState p1 = {| modifier := Release; buffer := [] |}.
Proof.
  intros Hne p1 r2 p3.
  assert (Hr2 : r2 = ({| modifier := Active; buffer := keys |}, []))
    by by apply deliver_active.
  assert (Hp3 : p3 = {| modifier := Hold; buffer := keys |}).
  { subst p3. rewrite Hr2. unfold handleModifierState. simpl.
    rewrite bool_decide_eq_true_2; [done|].
    destruct keys; [done | simpl; lia]. }
  split_and!; try done; by rewrite Hp3.
Qed.

(** X17: in Release nothing is buffered: the buffer logic ignores a key,
    an extra key is sent as it is, and a key-down leaves the page as it is,
    never cancels the default action, and sends the lower-cased name of
    the key exactly when its [length] is more than 1, in UTF-16 code units
    as JavaScript counts, and it is not 'unidentified' (the cases of
    backspace and enter being two of them). *)
Theorem release_passes_keys_through p eKey k :
  modifier p = Release →
  handleModifier k p = (p, [])
  ∧ sendKey k p = (p, [Key k])
  ∧ handleKeyDown eKey p
    = (p,
       if bool_decide (toLowerCase eKey ≠ "unidentified"%string)
          && bool_decide (1 < JS.length (toLowerCase eKey))
       then [Key (toLowerCase eKey)] else [],
       false).
Proof.
  intros Hm. unfold handleModifier, sendKey, Modifier.handleKeyDown.
  rewrite Hm. simpl. split_and!; try done.
  destruct (decide (toLowerCase eKey = "backspace"%string)) as [->|H1];
    [done|].
  rewrite (bool_decide_eq_false_2 (_ = "backspace"%string)) by done.
  destruct (decide (toLowerCase eKey = "enter"%string)) as [->|H2];
    [done|].
  rewrite (bool_decide_eq_false_2 (_ = "enter"%string)) by done.
  by destruct (_ && _).
Qed.

Lemma deliverValue_no_text val p :
  modifier p ≠ Release →
  Forall (λ o, isText o = false) (deliverValue val p).2.
Proof.
  intros Hm. unfold deliverValue. rewrite bool_decide_eq_true_2 by done.
  unfold handleModifier. destruct (modifier p); by repeat constructor.
Qed.

(** X18: while a modifier is on, no text is sent: neither an input event
    nor the end of a composition sends a text message, whatever the value;
    in Active a value typed outside a composition joins the buffer and the
    input is emptied. *)
Theorem no_text_in_modifier_mode val st :
  modifier (page st) ≠ Release →
  Forall (λ o, isText o = false) (handleInput val st).2
  ∧ Forall (λ o, isText o = false) (handleCompositionEnd val st).2
  ∧ (modifier (page st) = Active → isComposing st = false →
     val ≠ ""%string →
     handleInput val st
     = ({| page := {| modifier := Active; buffer := buffer (page st) ++ [val] |};
           isComposing := false |}, ""%string, [])).
Proof.
  intros Hm. pose proof (deliverValue_no_text val (page st) Hm) as Hd.
  split_and!.
  - unfold handleInput. destruct (isComposing st); [constructor|].
    case_bool_decide; [|constructor].
    by destruct (deliverValue val (page st)).
  - unfold handleCompositionEnd. case_bool_decide; [|constructor].
    by destruct (deliverValue val (page st)).
  - intros Ha Hc Hv. unfold handleInput, deliverValue, handleModifier.
    rewrite Hc, Ha. by rewrite (bool_decide_eq_true_2 (val ≠ ""%string)).
Qed.

Lemma composing_changes vals st :
  isComposing st = true → inputRun (Change <$> vals) st = (st, []).
Proof.
  intros Hc. induction vals as [|v vals IH]; [done|].
  rewrite fmap_cons. cbn [inputRun inputStep]. unfold handleInput.
  rewrite Hc. by rewrite IH.
Qed.

Lemma inputRun_app evs1 evs2 st :
  inputRun (evs1 ++ evs2) st
  = ((inputRun evs2 (inputRun evs1 st).1).1,
     (inputRun evs1 st).2 ++ (inputRun evs2 (inputRun evs1 st).1).2).
Proof.
  revert st. induction evs1 as [|ev evs1 IH]; intros st; simpl.
  - by destruct (inputRun evs2 st).
  - destruct (inputStep ev st) as [st1 out1]. rewrite IH.
    destruct (inputRun evs1 st1) as [st2 out2]. simpl.
    destruct (inputRun evs2 st2) as [st3 out3]. simpl. by rewrite app_assoc.
Qed.

(** X19: in Release, a composition sends its text once, at its end: the
    input events that come while it lasts send nothing, and its end sends
    the composed value, followed by a space when its [length] is more than
    1, in UTF-16 code units as JavaScript counts, and leaves the page as it
    was. *)
Theorem composed_text_is_sent_once vals val st :
  modifier (page st) = Release → isComposing st = false →
  val ≠ ""%string →
  inputRun (CompositionStart :: (Change <$> vals) ++ [CompositionEnd val]) st
  = (st,
     [Text (if bool_decide (1 < JS.length val)
            then (val +:+ " ")%string else val)]).
Proof.
  intros Hm Hc Hv. destruct st as [p c]. simpl in *. subst c.
  rewrite inputRun_app, composing_changes by done. simpl.
  unfold handleCompositionEnd, deliverValue, sendText. simpl.
  rewrite (bool_decide_eq_true_2 (val ≠ ""%string)) by done.
  rewrite Hm. simpl.
  by rewrite (bool_decide_eq_false_2 (val = ""%string)) by done.
Qed.

Lemma join_nonempty sep x l : x ≠ ""%string → join sep (x :: l) ≠ ""%string.
Proof.
  intros Hx. destruct x as [|c x]; [done|]. by destruct l.
Qed.

(** X22: as long as no buffered key is the empty string, the text of the
    buffer bar is empty, and the bar hidden, exactly when the buffer is
    empty. *)
Theorem buffer_bar_shows_nonempty_buffer p :
  Forall (λ key, key ≠ ""%string) (buffer p) →
  bufferText p = ""%string ↔ buffer p = [].
Proof.
  unfold bufferText. intros Hkeys. split; [|by intros ->].
  destruct Hkeys as [|key keys Hkey _]; [done|].
  intros H. by apply join_nonempty in H.
Qed.

End KeyboardFacts.

(** ** More sample gestures and pages *)

Section MoreSamples.

Import Sample.

Local Notation "'on_sample' thm" :=
  (thm TOUCH_MOVE_THRESHOLD TOUCH_TIMEOUT PINCH_THRESHOLD
       calculateAccelerationMult Number) (at level 10, only parsing).

Lemma twoDown_reachable :
  reachable (step (TouchStart (at_ 0 [touch 1 0 0; touch 2 30 40])) initial).1.
Proof.
  apply (on_sample reachable_step); [apply reachable_initial | discriminate].
Defined.

(** Two touches down: distinct identifiers, no timer, no drag. *)
Lemma session_state_invariants_witness :
  let s := (step (TouchStart (at_ 0 [touch 1 0 0; touch 2 30 40])) initial).1 in
  NoDup (ids (ongoingTouches s))
  ∧ (is_Some (draggingTimeout s) → ongoingTouches s = [])
  ∧ (dragging s = true → ongoingTouches s ≠ [])
  ∧ (ongoingTouches s = [] →
     releasedCount s = 0 ∧ lastPinchDist s = None ∧ pinching s = false).
Proof.
  intros s. apply (on_sample session_state_invariants s).
  apply twoDown_reachable.
Defined.

Lemma tracking_flag_shows_active_touches_witness :
  let s := (step (TouchStart (at_ 0 [touch 1 0 0; touch 2 30 40])) initial).1 in
  isTracking s = true ↔ ongoingTouches s ≠ [].
Proof.
  intros s. apply (on_sample tracking_flag_shows_active_touches s).
  apply twoDown_reachable.
Defined.

(** A third finger joins two: it is tracked after them, where it touched. *)
Lemma touch_start_tracks_every_contact_witness :
  let s := (step (TouchStart (at_ 0 [touch 1 0 0; touch 2 30 40])) initial).1 in
  let e := at_ 20 [touch 3 60 80] in
  (∃ i, findTouch (ongoingTouches (handleTouchStart e s).1) 3
        = Some (i, track 20 (touch 3 60 80)))
  ∧ ids (ongoingTouches s) `prefix_of` ids (ongoingTouches (handleTouchStart e s).1).
Proof.
  intros s e.
  destruct (touch_start_tracks_every_contact e s) as (H1 & _ & H3 & _).
  - refine (bool_decide_unpack _ _). vm_compute. exact I.
  - refine (bool_decide_unpack _ _). vm_compute. exact I.
  - split; [|exact H3].
    apply (H1 (touch 3 60 80)). left.
Defined.

(** The second of two touches moves: it takes the new position and keeps
    its start, the first is untouched. *)
Lemma touch_move_updates_positions_witness :
  let s := (step (TouchStart (at_ 0 [touch 1 0 0; touch 2 30 40])) initial).1 in
  let e := at_ 400 [touch 2 42 56] in
  let ts' := ongoingTouches (handleTouchMove false None e s).1 in
  ts' !! 1 = Some {| identifier := 2; pageX := 42; pageY := 56;
                     pageXStart := 30; pageYStart := 40; timeStamp := 400 |}
  ∧ ts' !! 0 = Some (track 0 (touch 1 0 0))
  ∧ length ts' = 2.
Proof.
  intros s e ts'.
  destruct (on_sample touch_move_updates_positions false None e s)
    as (H1 & H2 & H3).
  - refine (bool_decide_unpack _ _). vm_compute. exact I.
  - refine (bool_decide_unpack _ _). vm_compute. exact I.
  - split_and!.
    + apply (H1 (touch 2 42 56) 1 (track 0 (touch 2 30 40)));
        [left | reflexivity | reflexivity].
    + apply (H2 0 (track 0 (touch 1 0 0))); [reflexivity|].
      intros H%list_elem_of_singleton. discriminate H.
    + exact H3.
Defined.

(** The first of two touches is lifted: the second stays, one release is
    counted. *)
Lemma touch_end_removes_named_touches_witness :
  let s := (step (TouchStart (at_ 0 [touch 1 0 0; touch 2 30 40])) initial).1 in
  let e := at_ 50 [touch 1 0 0] in
  let s' := (handleTouchEnd e s).1 in
  ongoingTouches s'
  = filter (λ t, identifier t ∉ touch_ids (changedTouches e)) (ongoingTouches s)
  ∧ ids (ongoingTouches s') = [2%Z]
  ∧ lastEndTimeStamp s' = 50%float
  ∧ releasedCount s' + length (ongoingTouches s') = 2.
Proof.
  intros s e s'.
  destruct (on_sample
              (λ T t _ _ _, touch_end_removes_named_touches T t) e s)
    as (H1 & H2 & H3 & _).
  - refine (bool_decide_unpack _ _). vm_compute. exact I.
  - split_and!; [exact H1 | reflexivity | exact H2 |].
    apply H3. vm_compute. lia.
Defined.

(** Two fingers down at once and lifted one after the other within the
    timeout: a click of the right button. *)
Lemma lifted_fingers_are_counted_witness :
  let e0 := at_ 0 [touch 1 0 0; touch 2 30 40] in
  let ends := [TouchEnd (at_ 40 [touch 1 0 0]); TouchEnd (at_ 60 [touch 2 30 40])] in
  (run (TouchStart e0 :: ends) initial).2 = [Click Right true; Click Right false].
Proof.
  intros e0 ends.
  apply (on_sample lifted_fingers_are_counted initial e0 ends).
  - apply reachable_initial.
  - reflexivity.
  - discriminate.
  - refine (bool_decide_unpack _ _). vm_compute. exact I.
  - vm_compute. lia.
  - vm_compute. reflexivity.
  - vm_compute. reflexivity.
Defined.

(** [moved], set by a long hold, survives the landing of a second finger
    and the lifting of the first; the first touch of the next session
    clears it. *)
Lemma moved_is_sticky_within_a_session_witness :
  let s := (run [TouchStart (at_ 0 [touch 1 0 0]);
                 TouchMove false None (at_ 400 [touch 1 1 1])] initial).1 in
  let s1 := (step (TouchStart (at_ 410 [touch 2 30 40])) s).1 in
  let s2 := (step (TouchEnd (at_ 420 [touch 1 1 1; touch 2 30 40])) s1).1 in
  moved s = true ∧ moved s1 = true ∧ moved s2 = true
  ∧ moved (step (TouchStart (at_ 500 [touch 3 0 0])) s2).1 = false.
Proof.
  intros s s1 s2.
  assert (Hs : moved s = true) by (vm_compute; reflexivity).
  assert (Hs1 : moved s1 = true).
  { apply (proj1 (on_sample moved_is_sticky_within_a_session
                    (TouchStart (at_ 410 [touch 2 30 40])) s) Hs).
    intros e _. discriminate. }
  assert (Hs2 : moved s2 = true).
  { apply (proj1 (on_sample moved_is_sticky_within_a_session
                    (TouchEnd (at_ 420 [touch 1 1 1; touch 2 30 40])) s1) Hs1).
    intros e H. discriminate H. }
  split; [exact Hs|]. split; [exact Hs1|]. split; [exact Hs2|].
  refine (proj1 (proj2 (on_sample moved_is_sticky_within_a_session
                          (TouchStart (at_ 500 [touch 3 0 0])) s2)
                   (at_ 500 [touch 3 0 0]) eq_refl _)).
  vm_compute. reflexivity.
Defined.

(** One touch moves 30 px, beyond the 10 px of the table, 20 ms after it
    landed. *)
Lemma far_or_late_contact_sets_moved_witness :
  let s := (step (TouchStart (at_ 0 [touch 1 100 100])) initial).1 in
  moved s = false
  ∧ moved (handleTouchMove false None (at_ 20 [touch 1 130 100]) s).1 = true.
Proof.
  intros s. split; [reflexivity|].
  apply (on_sample far_or_late_contact_sets_moved false None
           (at_ 20 [touch 1 130 100]) s (touch 1 130 100) 0
           (track 0 (touch 1 100 100))).
  - refine (bool_decide_unpack _ _). vm_compute. exact I.
  - left.
  - reflexivity.
  - reflexivity.
  - vm_compute. reflexivity.
Defined.


(** A tap, a drag started within its release delay, and a tap after it. *)
Lemma left_button_presses_and_releases_alternate_witness :
  let evs := [TouchStart (at_ 0 [touch 1 100 100]);
              TouchEnd (at_ 50 [touch 1 100 100]);
              TouchStart (at_ 100 [touch 1 100 100]);
              TouchMove false None (at_ 500 [touch 1 150 100]);
              TouchEnd (at_ 600 [touch 1 150 100]);
              TouchStart (at_ 1000 [touch 1 100 100]);
              TouchEnd (at_ 1050 [touch 1 100 100]);
              DragTimeout] in
  (run evs initial).2
  = [Click Left true; Move 50 0; Click Left false; Click Left true;
     Click Left false]
  ∧ leftButton false (run evs initial).2 = Some (leftHeld (run evs initial).1).
Proof.
  intros evs. split; [vm_compute; reflexivity|].
  apply (on_sample left_button_presses_and_releases_alternate evs).
  repeat constructor; discriminate.
Defined.

(** A gesture of three touches in scroll mode. *)
Lemma scroll_mode_only_scrolls_witness :
  let evs := [TouchStart (at_ 0 [touch 1 0 0; touch 2 30 40; touch 3 60 80]);
              TouchMove true None (at_ 400 [touch 1 0 10])] in
  (run evs initial).2 = [Scroll (-0) (-10)]
  ∧ Forall (λ m, isZoom m = false ∧ isMoveMsg m = false) (run evs initial).2.
Proof.
  intros evs. split; [vm_compute; reflexivity|].
  destruct (on_sample scroll_mode_only_scrolls None (at_ 0 []) initial)
    as (_ & _ & _ & H).
  apply (H evs initial). reflexivity.
Defined.

(** With the storage holding a sensitivity of 2.5: before the page has
    loaded, the invert effect leaves it; its first run after loading leaves
    it too; its second run stores the flag. *)
Lemma persisted_invert_is_read_back_witness :
  let store : gmap string string := <[SENSITIVITY := "2.5"%string]> ∅ in
  let fresh := SettingsPage.mkFlags false true true in
  let r1 := SettingsPage.persistInvert true true (SettingsPage.loaded fresh)
                                       store in
  let r2 := SettingsPage.persistInvert true true r1.1 r1.2 in
  SettingsPage.persistInvert true true fresh store = (fresh, store)
  ∧ r1.2 = store
  ∧ invert (getClientSettings (Some r2.2)) = true
  ∧ sensitivity (getClientSettings (Some r2.2)) = 2.5%float.
Proof.
  intros store fresh r1 r2.
  destruct (persisted_invert_is_read_back Number true true fresh store)
    as (H1 & _ & _).
  destruct (persisted_invert_is_read_back Number true true
              (SettingsPage.loaded fresh) store) as (_ & H2 & _).
  destruct (persisted_invert_is_read_back Number true true r1.1 r1.2)
    as (_ & _ & H3).
  destruct (H2 eq_refl eq_refl eq_refl) as (Hst & _).
  destruct (H3 eq_refl eq_refl eq_refl) as (_ & Hi & Hs).
  split; [apply H1; by right|]. split; [exact Hst|]. split; [exact Hi|].
  etrans; [exact Hs|]. vm_compute. reflexivity.
Defined.

(** A sensitivity of 2.5 stored by the page and read by the hook. *)
Lemma persisted_sensitivity_is_read_back_witness :
  let flags := SettingsPage.mkFlags true false false in
  let r := SettingsPage.persistSensitivity (λ _, "2.5"%string) true 2.5%float
                                           flags ∅ in
  sensitivity (getClientSettings (Some r.2)) = 2.5%float
  ∧ invert (getClientSettings (Some r.2)) = false.
Proof.
  intros flags r.
  destruct (persisted_sensitivity_is_read_back Number (λ _, "2.5"%string)
              2.5%float flags ∅) as (_ & H2 & H3);
    [reflexivity | reflexivity | vm_compute; reflexivity | reflexivity |].
  split; [exact H2 | exact H3].
Defined.

(** With nothing stored the address is the host name, or localhost when
    that is unknown; a stored address is loaded. *)
Lemma loaded_ip_is_never_empty_witness :
  SettingsPage.loadIp "pc.local"%string ∅ = "pc.local"%string
  ∧ SettingsPage.loadIp ""%string (<[SettingsPage.IP := ""%string]> ∅)
    = "localhost"%string
  ∧ SettingsPage.loadIp "pc.local"%string
      (SettingsPage.persistIp "192.168.1.5"%string ∅)
    = "192.168.1.5"%string.
Proof.
  split_and!.
  - destruct (loaded_ip_is_never_empty "pc.local"%string ""%string ∅)
      as (_ & _ & H & _).
    apply H; [left; reflexivity | discriminate].
  - destruct (loaded_ip_is_never_empty ""%string ""%string
                (<[SettingsPage.IP := ""%string]> ∅)) as (_ & _ & H & _).
    apply H; [right; reflexivity | reflexivity].
  - destruct (loaded_ip_is_never_empty "pc.local"%string
                "192.168.1.5"%string ∅) as (_ & _ & _ & H & _).
    apply H. discriminate.
Defined.

End MoreSamples.

Section MoreKeyboardSamples.

Import Modifier TextInput.

(** Control and alt buffered, then held, then the key delete. *)
Lemma modifier_round_witness :
  let keys := ["control"%string; "alt"%string] in
  let p1 := handleModifierState {| modifier := Release; buffer := ["x"%string] |} in
  let p3 := handleModifierState (deliver keys p1).1 in
  p3 = {| modifier := Hold; buffer := keys |}
  ∧ handleModifier "delete"%string p3
    = (p3, [Combo ["control"%string; "alt"%string; "delete"%string]])
  ∧ handleModifierState p3 = {| modifier := Release; buffer := [] |}.
Proof.
  intros keys p1 p3.
  destruct (modifier_round ["x"%string] keys "delete"%string)
    as (_ & _ & H3 & H4 & H5 & _); [discriminate|].
  split; [exact H3|]. split; [exact H4 | exact H5].
Defined.

(** In Release: the key Tab is sent as tab; the keys a and é, each of
    length 1, are left to the input event. *)
Lemma release_passes_keys_through_witness :
  let p := {| modifier := Release; buffer := [] |} in
  handleKeyDown lowerCase "Tab"%string p = (p, [Key "tab"%string], false)
  ∧ handleKeyDown lowerCase "a"%string p = (p, [], false)
  ∧ handleKeyDown lowerCase "é"%string p = (p, [], false)
  ∧ sendKey "f5"%string p = (p, [Key "f5"%string]).
Proof.
  intros p. split_and!.
  - exact (proj2 (proj2 (release_passes_keys_through lowerCase p
                           "Tab"%string "x"%string eq_refl))).
  - exact (proj2 (proj2 (release_passes_keys_through lowerCase p
                           "a"%string "x"%string eq_refl))).
  - exact (proj2 (proj2 (release_passes_keys_through lowerCase p
                           "é"%string "x"%string eq_refl))).
  - exact (proj1 (proj2 (release_passes_keys_through lowerCase p
                           "a"%string "f5"%string eq_refl))).
Defined.

(** In Active, the typed letter c joins the buffered control. *)
Lemma no_text_in_modifier_mode_witness :
  let st := {| page := {| modifier := Active; buffer := ["control"%string] |};
               isComposing := false |} in
  handleInput "c"%string st
  = ({| page := {| modifier := Active;
                   buffer := ["control"%string; "c"%string] |};
        isComposing := false |}, ""%string, [])
  ∧ Forall (λ o, isText o = false) (handleCompositionEnd "ni"%string st).2.
Proof.
  intros st.
  destruct (no_text_in_modifier_mode "c"%string st) as (_ & _ & H);
    [discriminate|].
  destruct (no_text_in_modifier_mode "ni"%string st) as (_ & H' & _);
    [discriminate|].
  split; [|exact H'].
  apply H; [reflexivity | reflexivity | discriminate].
Defined.

(** A composition of two input events ending with the value ni, of length
    2, and one ending with the value 你, of length 1. *)
Lemma composed_text_is_sent_once_witness :
  let st := {| page := {| modifier := Release; buffer := [] |};
               isComposing := false |} in
  inputRun [CompositionStart; Change "n"%string; Change "ni"%string;
            CompositionEnd "ni"%string] st
  = (st, [Text "ni "%string])
  ∧ inputRun [CompositionStart; Change "ni"%string; CompositionEnd "你"%string]
      st
    = (st, [Text "你"%string]).
Proof.
  intros st. split.
  - apply (composed_text_is_sent_once ["n"%string; "ni"%string] "ni"%string st);
      [reflexivity | reflexivity | discriminate].
  - apply (composed_text_is_sent_once ["ni"%string] "你"%string st);
      [reflexivity | reflexivity | discriminate].
Defined.

(** The bar for control and alt buffered. *)
Lemma buffer_bar_shows_nonempty_buffer_witness :
  let p := {| modifier := Active; buffer := ["control"%string; "alt"%string] |} in
  bufferText p = "control + alt"%string
  ∧ (bufferText p = ""%string ↔ buffer p = []).
Proof.
  intros p. split; [reflexivity|].
  apply (buffer_bar_shows_nonempty_buffer p).
  repeat constructor; discriminate.
Defined.

End MoreKeyboardSamples.
